(** * Flappy-bird simulation core: a shallow embedding of the game component

    The repository holds two variants of one React component: [Page]
    (src/app/page.js) and [FlappyGame] (the component-based variant that
    renders through GameObjects).  Both keep the whole game in [useState]
    cells and drive it from event handlers and effects.  The embedding below
    makes the cells one record, every handler a function on that record, and
    the effect that React re-runs after a render a function applied after the
    handler.

    Numbers.  JavaScript numbers are modelled as exact rationals in canonical
    form ([Qc]) for positions and speeds and as integers ([Z]) for the score
    counters; the properties proved on this model rest on the branches taken
    and on the order of numbers, which rounding keeps, or are stated for
    integers of magnitude at most 2^53.  The arithmetic of the pipe heights, where rounding shows, is
    given a second time on binary64 floats (module [Binary64]).
    [Math.random()] is an explicit argument of the operation that draws it.

    Strings.  A JavaScript string is the list of its UTF-16 code units. *)

From Stdlib Require Import ZArith QArith Qcanon List Sorted Bool Lia Lqa.
From Stdlib Require Import String Ascii Decimal DecimalString DecimalPos.
From Stdlib Require Import Floats.PrimFloat Floats.SpecFloat Floats.FloatOps.
Import ListNotations.

(** ** Numbers *)

Module Num.

(** A numeric literal of the source. *)
Definition lit (q : Q) : Qc := Q2Qc q.

(** The relational operators [<], [<=], [>], [>=] of the source, on exact
    numbers. *)
Definition ltb (a b : Qc) : bool :=
  match (a ?= b)%Qc with Lt => true | _ => false end.
Definition leb (a b : Qc) : bool :=
  match (a ?= b)%Qc with Gt => false | _ => true end.
Definition gtb (a b : Qc) : bool := ltb b a.
Definition geb (a b : Qc) : bool := leb b a.

(** [Object.is] on two numbers, as React compares effect dependencies. *)
Definition same (a b : Qc) : bool :=
  match (a ?= b)%Qc with Eq => true | _ => false end.

End Num.

Declare Scope js_scope.
Delimit Scope js_scope with js.
Infix "<?" := Num.ltb (at level 70, no associativity) : js_scope.
Infix "<=?" := Num.leb (at level 70, no associativity) : js_scope.
Infix ">?" := Num.gtb (at level 70, no associativity) : js_scope.
Infix ">=?" := Num.geb (at level 70, no associativity) : js_scope.

(** ** Strings and the two built-ins used on the persisted high score *)

Module JS.

Local Open Scope Z_scope.

(** UTF-16 code units. *)
Definition str := list N.

Definition ofString (s : string) : str :=
  List.map N_of_ascii (list_ascii_of_string s).

(** WhiteSpace and LineTerminator code points of ECMAScript, the set that
    [parseInt] skips at the start of its input. *)
Definition isStrWhiteSpace (c : N) : bool :=
  (  (c =? 9) || (c =? 10) || (c =? 11) || (c =? 12) || (c =? 13)
  || (c =? 32) || (c =? 160) || (c =? 5760)
  || ((8192 <=? c) && (c <=? 8202))
  || (c =? 8232) || (c =? 8233) || (c =? 8239) || (c =? 8287)
  || (c =? 12288) || (c =? 65279))%N.

Fixpoint trimStart (s : str) : str :=
  match s with
  | c :: rest => if isStrWhiteSpace c then trimStart rest else s
  | [] => []
  end.

(** Value of a code unit as a digit: [0-9], [a-z], [A-Z]. *)
Definition digitValue (c : N) : option Z :=
  if ((48 <=? c) && (c <=? 57))%N then Some (Z.of_N c - 48)
  else if ((97 <=? c) && (c <=? 122))%N then Some (Z.of_N c - 97 + 10)
  else if ((65 <=? c) && (c <=? 90))%N then Some (Z.of_N c - 65 + 10)
  else None.

(** The digits of the longest prefix made of radix-[R] digits. *)
Fixpoint takeDigits (R : Z) (s : str) : list Z :=
  match s with
  | c :: rest =>
      match digitValue c with
      | Some d => if d <? R then d :: takeDigits R rest else []
      | None => []
      end
  | [] => []
  end.

Definition mathInt (R : Z) (ds : list Z) : Z :=
  fold_left (fun acc d => acc * R + d) ds 0.

(** [parseInt(string)] with no radix argument; [None] is NaN. *)
Definition parseInt (input : str) : option Z :=
  let trimmed := trimStart input in
  let sign : Z :=
    match trimmed with
    | c :: _ => if (c =? 45)%N then -1 else 1
    | [] => 1
    end in
  let unsigned :=
    match trimmed with
    | c :: rest => if ((c =? 43) || (c =? 45))%N then rest else trimmed
    | [] => trimmed
    end in
  let '(R, body) :=
    match unsigned with
    | c0 :: c1 :: rest =>
        if ((c0 =? 48) && ((c1 =? 120) || (c1 =? 88)))%N
        then (16, rest) else (10, unsigned)
    | _ => (10, unsigned)
    end in
  match takeDigits R body with
  | [] => None
  | ds => Some (sign * mathInt R ds)
  end.

(** [n.toString()] for an integer-valued number. *)
Definition toString (n : Z) : str :=
  ofString (NilZero.string_of_int (Z.to_int n)).

(** [value || "0"] where [value] is a string or [null]: [null] and the
    empty string are falsy. *)
Definition orZero (value : option str) : str :=
  match value with
  | None => ofString "0"
  | Some [] => ofString "0"
  | Some s => s
  end.

End JS.

(** ** Data model *)

Module Bird.
Record t := mk { x : Qc; y : Qc; velocity : Qc }.
End Bird.

Module Pipe.
Record t := mk { x : Qc; topHeight : Qc; bottomHeight : Qc; passed : bool }.
End Pipe.

(** The [useState] cells of the component, and the one [localStorage] entry
    it reads and writes (key "flappyHighScore"; [None] when absent). *)
Record State := mkState {
  bird : Bird.t;
  pipes : list Pipe.t;
  gameStarted : bool;
  gameOver : bool;
  score : Z;
  highScore : Z;
  gameWidth : Qc;
  gameHeight : Qc;
  flappyHighScore : option JS.str
}.

(** What the driver can deliver: the mount of the component (with the window
    size found there), a window resize, a key press or click, one firing of
    the 16 ms interval, and the Play Again button. *)
Inductive Event :=
| Mount (innerWidth innerHeight : Qc)
| Resize (innerWidth innerHeight : Qc)
| Jump (random : Qc)
| Tick (random : Qc)
| Reset.

Inductive Phase := Idle | Running | Over.

(** The phase shown on screen: the start overlay is drawn while
    [gameStarted] is false, the game-over overlay while [gameOver] is true. *)
Definition phase (s : State) : option Phase :=
  match gameStarted s, gameOver s with
  | false, false => Some Idle
  | true, false => Some Running
  | true, true => Some Over
  | false, true => None
  end.

(** ** The component of src/app/page.js *)

Module Page.

Local Open Scope Qc_scope.
Local Open Scope js_scope.

Definition BIRD_WIDTH : Qc := Num.lit 40.
Definition BIRD_HEIGHT : Qc := Num.lit 30.
Definition PIPE_WIDTH : Qc := Num.lit 60.
Definition PIPE_GAP : Qc := Num.lit 200.
Definition GRAVITY : Qc := Num.lit 0.4.
Definition JUMP_FORCE : Qc := Num.lit (-7).
Definition PIPE_SPEED : Qc := Num.lit 2.

(** The initial values of the state cells; [stored] is what the browser
    holds under the high-score key when the page loads. *)
Definition initial (stored : option JS.str) : State :=
  {| bird := Bird.mk (Num.lit 100) (Num.lit 300) 0;
     pipes := [];
     gameStarted := false;
     gameOver := false;
     score := 0%Z;
     highScore := 0%Z;
     gameWidth := Num.lit 800;
     gameHeight := Num.lit 600;
     flappyHighScore := stored |}.

(** [jump]: the first call starts the game with one pipe, later calls give
    the bird its impulse, calls after game over do nothing. *)
Definition jump (s : State) (random : Qc) : State :=
  if negb (gameStarted s) then
    let topH := random * (gameHeight s - PIPE_GAP - Num.lit 100) + Num.lit 50 in
    {| bird := bird s;
       pipes := [ Pipe.mk (gameWidth s) topH
                          (gameHeight s - topH - PIPE_GAP) false ];
       gameStarted := true;
       gameOver := gameOver s;
       score := score s;
       highScore := highScore s;
       gameWidth := gameWidth s;
       gameHeight := gameHeight s;
       flappyHighScore := flappyHighScore s |}
  else if gameOver s then s
  else
    let prev := bird s in
    {| bird := Bird.mk (Bird.x prev) (Bird.y prev) JUMP_FORCE;
       pipes := pipes s;
       gameStarted := gameStarted s;
       gameOver := gameOver s;
       score := score s;
       highScore := highScore s;
       gameWidth := gameWidth s;
       gameHeight := gameHeight s;
       flappyHighScore := flappyHighScore s |}.

Definition resetGame (s : State) : State :=
  {| bird := Bird.mk (Num.lit 100) (gameHeight s / Num.lit 2) 0;
     pipes := [];
     gameStarted := false;
     gameOver := false;
     score := 0%Z;
     highScore := highScore s;
     gameWidth := gameWidth s;
     gameHeight := gameHeight s;
     flappyHighScore := flappyHighScore s |}.

Definition handleResize (s : State) (innerWidth innerHeight : Qc) : State :=
  {| bird := bird s;
     pipes := pipes s;
     gameStarted := gameStarted s;
     gameOver := gameOver s;
     score := score s;
     highScore := highScore s;
     gameWidth := innerWidth;
     gameHeight := innerHeight;
     flappyHighScore := flappyHighScore s |}.

(** The high score read on mount:
    [parseInt(localStorage.getItem(key) || "0")], with NaN replaced by 0. *)
Definition loadHighScore (value : option JS.str) : Z :=
  match JS.parseInt (JS.orZero value) with
  | None => 0%Z
  | Some stored => stored
  end.

(** The effect that runs once on mount. *)
Definition mount (s : State) (innerWidth innerHeight : Qc) : State :=
  let prev := bird s in
  {| bird := Bird.mk (Bird.x prev) (innerHeight / Num.lit 2) (Bird.velocity prev);
     pipes := pipes s;
     gameStarted := gameStarted s;
     gameOver := gameOver s;
     score := score s;
     highScore := loadHighScore (flappyHighScore s);
     gameWidth := innerWidth;
     gameHeight := innerHeight;
     flappyHighScore := flappyHighScore s |}.

(** The [setBird] updater of the interval callback: the new bird and
    whether [setGameOver(true)] was called. *)
Definition moveBird (gameHeight : Qc) (prev : Bird.t) : Bird.t * bool :=
  let newY := Bird.y prev + Bird.velocity prev in
  let newVelocity := Bird.velocity prev + GRAVITY in
  if (newY <=? 0) || (newY >=? gameHeight - BIRD_HEIGHT) then (prev, true)
  else (Bird.mk (Bird.x prev) newY newVelocity, false).

(** The [setPipes] updater of the interval callback. *)
Definition movePipes (gameWidth gameHeight random : Qc) (prev : list Pipe.t)
  : list Pipe.t :=
  let newPipes :=
    List.map (fun pipe => Pipe.mk (Pipe.x pipe - PIPE_SPEED) (Pipe.topHeight pipe)
                                  (Pipe.bottomHeight pipe) (Pipe.passed pipe))
             prev in
  let newPipes := List.filter (fun pipe => Pipe.x pipe >? - PIPE_WIDTH) newPipes in
  if Nat.eqb (List.length newPipes) 0
     || match List.nth_error newPipes (List.length newPipes - 1) with
        | Some lastPipe => Pipe.x lastPipe <? gameWidth - Num.lit 250
        | None => false
        end
  then
    let topHeight := random * (gameHeight - PIPE_GAP - Num.lit 100) + Num.lit 50 in
    newPipes ++ [ Pipe.mk gameWidth topHeight
                          (gameHeight - topHeight - PIPE_GAP) false ]
  else newPipes.

(** One firing of the interval: both updaters, in the order queued. *)
Definition gameLoop (s : State) (random : Qc) : State :=
  let '(newBird, outOfBounds) := moveBird (gameHeight s) (bird s) in
  {| bird := newBird;
     pipes := movePipes (gameWidth s) (gameHeight s) random (pipes s);
     gameStarted := gameStarted s;
     gameOver := if outOfBounds then true else gameOver s;
     score := score s;
     highScore := highScore s;
     gameWidth := gameWidth s;
     gameHeight := gameHeight s;
     flappyHighScore := flappyHighScore s |}.

(** The collision test of [checkCollisions] for one pipe. *)
Definition hits (b : Bird.t) (gameHeight : Qc) (pipe : Pipe.t) : bool :=
  (Bird.x b + BIRD_WIDTH >? Pipe.x pipe)
  && (Bird.x b <? Pipe.x pipe + PIPE_WIDTH)
  && ((Bird.y b <? Pipe.topHeight pipe)
      || (Bird.y b + BIRD_HEIGHT >? gameHeight - Pipe.bottomHeight pipe)).

(** The [for] loop of [checkCollisions] from index [i] on, over the copied
    array: it stops at the first hit, and until then marks and counts every
    pipe the bird has cleared.  The result is [collided], the array as the
    loop leaves it, and [newlyPassed]. *)
Fixpoint scan (b : Bird.t) (gameHeight : Qc) (newPipes : list Pipe.t)
              (newlyPassed : Z) : bool * list Pipe.t * Z :=
  match newPipes with
  | [] => (false, [], newlyPassed)
  | pipe :: rest =>
      if hits b gameHeight pipe then (true, pipe :: rest, newlyPassed)
      else if negb (Pipe.passed pipe) && (Bird.x b >? Pipe.x pipe + PIPE_WIDTH) then
        let '(collided, rest', n) := scan b gameHeight rest (newlyPassed + 1)%Z in
        (collided,
         Pipe.mk (Pipe.x pipe) (Pipe.topHeight pipe) (Pipe.bottomHeight pipe) true
           :: rest',
         n)
      else
        let '(collided, rest', n) := scan b gameHeight rest newlyPassed in
        (collided, pipe :: rest', n)
  end.

(** The collision-and-scoring effect, run after a render in which one of
    [bird], [pipes], [gameOver], [gameStarted], [highScore], [gameHeight]
    changed. *)
Definition checkCollisions (s : State) : State :=
  if negb (gameStarted s) || gameOver s then s
  else
    let '(collided, newPipes, newlyPassed) :=
      scan (bird s) (gameHeight s) (pipes s) 0%Z in
    if collided then
      {| bird := bird s;
         pipes := pipes s;
         gameStarted := gameStarted s;
         gameOver := true;
         score := score s;
         highScore := highScore s;
         gameWidth := gameWidth s;
         gameHeight := gameHeight s;
         flappyHighScore := flappyHighScore s |}
    else if (newlyPassed >? 0)%Z then
      let newScore := (score s + newlyPassed)%Z in
      let beaten := (newScore >? highScore s)%Z in
      {| bird := bird s;
         pipes := newPipes;
         gameStarted := gameStarted s;
         gameOver := gameOver s;
         score := newScore;
         highScore := if beaten then newScore else highScore s;
         gameWidth := gameWidth s;
         gameHeight := gameHeight s;
         flappyHighScore :=
           if beaten then Some (JS.toString newScore) else flappyHighScore s |}
    else s.

(** One event, handler first and then the effect.  The interval exists only
    between a render with [gameStarted && !gameOver] and the next render
    without it, so a tick outside Running does not happen; a resize re-runs
    the effect only when it changes [gameHeight]. *)
Definition step (s : State) (e : Event) : State :=
  match e with
  | Mount w h => checkCollisions (mount s w h)
  | Resize w h =>
      if Num.same h (gameHeight s) then handleResize s w h
      else checkCollisions (handleResize s w h)
  | Jump random => checkCollisions (jump s random)
  | Tick random =>
      if negb (gameStarted s) || gameOver s then s
      else checkCollisions (gameLoop s random)
  | Reset => checkCollisions (resetGame s)
  end.

Definition run (s : State) (events : list Event) : State :=
  List.fold_left step events s.

End Page.

(** ** The component-based variant, FlappyGame *)

Module FlappyGame.

Local Open Scope Qc_scope.
Local Open Scope js_scope.

Definition BIRD_WIDTH : Qc := Num.lit 40.
Definition BIRD_HEIGHT : Qc := Num.lit 30.
Definition PIPE_WIDTH : Qc := Num.lit 60.
Definition PIPE_GAP : Qc := Num.lit 200.
Definition GRAVITY : Qc := Num.lit 0.4.
Definition JUMP_FORCE : Qc := Num.lit (-7).
Definition PIPE_SPEED : Qc := Num.lit 2.

(** The initial values of the state cells. *)
Definition initial (stored : option JS.str) : State :=
  {| bird := Bird.mk (Num.lit 100) (Num.lit 300) 0;
     pipes := [];
     gameStarted := false;
     gameOver := false;
     score := 0%Z;
     highScore := 0%Z;
     gameWidth := Num.lit 800;
     gameHeight := Num.lit 600;
     flappyHighScore := stored |}.

(** [jump]: first jump starts the game, no jump after game over. *)
Definition jump (s : State) (random : Qc) : State :=
  if negb (gameStarted s) then
    let topH := random * (gameHeight s - PIPE_GAP - Num.lit 100) + Num.lit 50 in
    {| bird := bird s;
       pipes := [ Pipe.mk (gameWidth s) topH
                          (gameHeight s - topH - PIPE_GAP) false ];
       gameStarted := true;
       gameOver := gameOver s;
       score := score s;
       highScore := highScore s;
       gameWidth := gameWidth s;
       gameHeight := gameHeight s;
       flappyHighScore := flappyHighScore s |}
  else if gameOver s then s
  else
    let prev := bird s in
    {| bird := Bird.mk (Bird.x prev) (Bird.y prev) JUMP_FORCE;
       pipes := pipes s;
       gameStarted := gameStarted s;
       gameOver := gameOver s;
       score := score s;
       highScore := highScore s;
       gameWidth := gameWidth s;
       gameHeight := gameHeight s;
       flappyHighScore := flappyHighScore s |}.

Definition resetGame (s : State) : State :=
  {| bird := Bird.mk (Num.lit 100) (gameHeight s / Num.lit 2) 0;
     pipes := [];
     gameStarted := false;
     gameOver := false;
     score := 0%Z;
     highScore := highScore s;
     gameWidth := gameWidth s;
     gameHeight := gameHeight s;
     flappyHighScore := flappyHighScore s |}.

Definition handleResize (s : State) (innerWidth innerHeight : Qc) : State :=
  {| bird := bird s;
     pipes := pipes s;
     gameStarted := gameStarted s;
     gameOver := gameOver s;
     score := score s;
     highScore := highScore s;
     gameWidth := innerWidth;
     gameHeight := innerHeight;
     flappyHighScore := flappyHighScore s |}.

(** The high score read on mount:
    [parseInt(localStorage.getItem(key) || "0")], with NaN replaced by 0. *)
Definition loadHighScore (value : option JS.str) : Z :=
  match JS.parseInt (JS.orZero value) with
  | None => 0%Z
  | Some stored => stored
  end.

(** The effect that runs once on mount. *)
Definition mount (s : State) (innerWidth innerHeight : Qc) : State :=
  let prev := bird s in
  {| bird := Bird.mk (Bird.x prev) (innerHeight / Num.lit 2) (Bird.velocity prev);
     pipes := pipes s;
     gameStarted := gameStarted s;
     gameOver := gameOver s;
     score := score s;
     highScore := loadHighScore (flappyHighScore s);
     gameWidth := innerWidth;
     gameHeight := innerHeight;
     flappyHighScore := flappyHighScore s |}.

(** The [setBird] updater of the interval callback: the new bird and
    whether [setGameOver(true)] was called. *)
Definition moveBird (gameHeight : Qc) (prev : Bird.t) : Bird.t * bool :=
  let newY := Bird.y prev + Bird.velocity prev in
  let newVelocity := Bird.velocity prev + GRAVITY in
  if (newY <=? 0) || (newY >=? gameHeight - BIRD_HEIGHT) then (prev, true)
  else (Bird.mk (Bird.x prev) newY newVelocity, false).

(** The [setPipes] updater of the interval callback. *)
Definition movePipes (gameWidth gameHeight random : Qc) (prev : list Pipe.t)
  : list Pipe.t :=
  let newPipes :=
    List.map (fun pipe => Pipe.mk (Pipe.x pipe - PIPE_SPEED) (Pipe.topHeight pipe)
                                  (Pipe.bottomHeight pipe) (Pipe.passed pipe))
             prev in
  let newPipes := List.filter (fun pipe => Pipe.x pipe >? - PIPE_WIDTH) newPipes in
  if Nat.eqb (List.length newPipes) 0
     || match List.nth_error newPipes (List.length newPipes - 1) with
        | Some lastPipe => Pipe.x lastPipe <? gameWidth - Num.lit 250
        | None => false
        end
  then
    let topHeight := random * (gameHeight - PIPE_GAP - Num.lit 100) + Num.lit 50 in
    newPipes ++ [ Pipe.mk gameWidth topHeight
                          (gameHeight - topHeight - PIPE_GAP) false ]
  else newPipes.

(** One firing of the interval: both updaters, in the order queued. *)
Definition gameLoop (s : State) (random : Qc) : State :=
  let '(newBird, outOfBounds) := moveBird (gameHeight s) (bird s) in
  {| bird := newBird;
     pipes := movePipes (gameWidth s) (gameHeight s) random (pipes s);
     gameStarted := gameStarted s;
     gameOver := if outOfBounds then true else gameOver s;
     score := score s;
     highScore := highScore s;
     gameWidth := gameWidth s;
     gameHeight := gameHeight s;
     flappyHighScore := flappyHighScore s |}.

(** The collision test of the effect for one pipe. *)
Definition hits (b : Bird.t) (gameHeight : Qc) (pipe : Pipe.t) : bool :=
  (Bird.x b + BIRD_WIDTH >? Pipe.x pipe)
  && (Bird.x b <? Pipe.x pipe + PIPE_WIDTH)
  && ((Bird.y b <? Pipe.topHeight pipe)
      || (Bird.y b + BIRD_HEIGHT >? gameHeight - Pipe.bottomHeight pipe)).

(** The [for] loop of the effect over the copied array, from index [i]
    on; it yields [collided], the array as the loop leaves it, and
    [newlyPassed]. *)
Fixpoint scan (b : Bird.t) (gameHeight : Qc) (newPipes : list Pipe.t)
              (newlyPassed : Z) : bool * list Pipe.t * Z :=
  match newPipes with
  | [] => (false, [], newlyPassed)
  | pipe :: rest =>
      if hits b gameHeight pipe then (true, pipe :: rest, newlyPassed)
      else if negb (Pipe.passed pipe) && (Bird.x b >? Pipe.x pipe + PIPE_WIDTH) then
        let '(collided, rest', n) := scan b gameHeight rest (newlyPassed + 1)%Z in
        (collided,
         Pipe.mk (Pipe.x pipe) (Pipe.topHeight pipe) (Pipe.bottomHeight pipe) true
           :: rest',
         n)
      else
        let '(collided, rest', n) := scan b gameHeight rest newlyPassed in
        (collided, pipe :: rest', n)
  end.

(** The collision-and-scoring effect; here its body is written directly in
    the effect, with the same dependency list. *)
Definition collisionEffect (s : State) : State :=
  if negb (gameStarted s) || gameOver s then s
  else
    let '(collided, newPipes, newlyPassed) :=
      scan (bird s) (gameHeight s) (pipes s) 0%Z in
    if collided then
      {| bird := bird s;
         pipes := pipes s;
         gameStarted := gameStarted s;
         gameOver := true;
         score := score s;
         highScore := highScore s;
         gameWidth := gameWidth s;
         gameHeight := gameHeight s;
         flappyHighScore := flappyHighScore s |}
    else if (newlyPassed >? 0)%Z then
      let newScore := (score s + newlyPassed)%Z in
      let beaten := (newScore >? highScore s)%Z in
      {| bird := bird s;
         pipes := newPipes;
         gameStarted := gameStarted s;
         gameOver := gameOver s;
         score := newScore;
         highScore := if beaten then newScore else highScore s;
         gameWidth := gameWidth s;
         gameHeight := gameHeight s;
         flappyHighScore :=
           if beaten then Some (JS.toString newScore) else flappyHighScore s |}
    else s.

(** One event, handler first and then the effect, under the same guards. *)
Definition step (s : State) (e : Event) : State :=
  match e with
  | Mount w h => collisionEffect (mount s w h)
  | Resize w h =>
      if Num.same h (gameHeight s) then handleResize s w h
      else collisionEffect (handleResize s w h)
  | Jump random => collisionEffect (jump s random)
  | Tick random =>
      if negb (gameStarted s) || gameOver s then s
      else collisionEffect (gameLoop s random)
  | Reset => collisionEffect (resetGame s)
  end.

Definition run (s : State) (events : list Event) : State :=
  List.fold_left step events s.

End FlappyGame.


(** ** The pipe heights as the code computes them, on binary64 *)

Module Binary64.

Local Open Scope float_scope.

Definition PIPE_GAP : float := 200.

(** [Math.random() * (gameHeight - PIPE_GAP - 100) + 50], the same expression
    in [jump] and in the interval callback of both variants. *)
Definition topHeight (gameHeight random : float) : float :=
  random * (gameHeight - PIPE_GAP - 100) + 50.

(** [gameHeight - topHeight - PIPE_GAP]. *)
Definition bottomHeight (gameHeight random : float) : float :=
  gameHeight - topHeight gameHeight random - PIPE_GAP.


(** The rational number a finite float stands for. *)
Definition value (f : float) : option Q :=
  match Prim2SF f with
  | S754_zero _ => Some 0%Q
  | S754_finite s m e =>
      let magnitude := (inject_Z (Z.pos m) * Qpower 2 e)%Q in
      Some (if s then Qopp magnitude else magnitude)
  | S754_infinity _ => None
  | S754_nan => None
  end.


Definition draw_below_1 : float := 0x1.fffffffffffffp-1.

End Binary64.

(** ** Definitions used to state the properties *)

Module Spec.

Local Open Scope Qc_scope.

(** Two half-open spans [[a, b)] and [[c, d)] overlap when they share a
    point. *)
Definition overlaps (a b c d : Qc) : Prop :=
  exists t : Qc, (a <= t /\ t < b) /\ (c <= t /\ t < d).

(** The collision predicate in the words of the specification: the bird's
    horizontal span overlaps the pipe's, and the bird's top is above the gap
    or its bottom below it. *)
Definition collides (b : Bird.t) (playfieldHeight : Qc) (pipe : Pipe.t) : Prop :=
  overlaps (Bird.x b) (Bird.x b + Page.BIRD_WIDTH)
           (Pipe.x pipe) (Pipe.x pipe + Page.PIPE_WIDTH)
  /\ (Bird.y b < Pipe.topHeight pipe
      \/ playfieldHeight - Pipe.bottomHeight pipe < Bird.y b + Page.BIRD_HEIGHT).

(** The creation invariant of a pipe. *)
Definition wellFormed (playfieldHeight : Qc) (pipe : Pipe.t) : Prop :=
  Pipe.topHeight pipe + Page.PIPE_GAP + Pipe.bottomHeight pipe = playfieldHeight.

(** Number of pipes of a sequence whose [passed] flag is set. *)
Definition passedCount (ps : list Pipe.t) : Z :=
  Z.of_nat (List.length (List.filter Pipe.passed ps)).

(** Sequence order against position: every pipe strictly left of all later
    ones, or at or right of all later ones. *)
Definition ascending (ps : list Pipe.t) : Prop :=
  StronglySorted (fun p q => Pipe.x p < Pipe.x q) ps.
Definition descending (ps : list Pipe.t) : Prop :=
  StronglySorted (fun p q => Pipe.x q <= Pipe.x p) ps.

(** A pipe moved by one tick; a pipe fully off the left edge; the pipes of
    a sequence that the generator keeps after moving them. *)
Definition shifted (pipe : Pipe.t) : Pipe.t :=
  Pipe.mk (Pipe.x pipe - Page.PIPE_SPEED) (Pipe.topHeight pipe)
          (Pipe.bottomHeight pipe) (Pipe.passed pipe).
Definition offLeftEdge (pipe : Pipe.t) : Prop :=
  Pipe.x pipe <= - Page.PIPE_WIDTH.
Definition offLeftEdgeb (pipe : Pipe.t) : bool :=
  Num.leb (Pipe.x pipe) (- Page.PIPE_WIDTH).
Definition survivors (ps : list Pipe.t) : list Pipe.t :=
  List.filter (fun pipe => negb (offLeftEdgeb pipe)) (List.map shifted ps).

(** The pipe the generator creates for a draw [random] of [Math.random]. *)
Definition newPipe (playfieldWidth playfieldHeight random : Qc) : Pipe.t :=
  let topHeight :=
    random * (playfieldHeight - Page.PIPE_GAP - Num.lit 100) + Num.lit 50 in
  Pipe.mk playfieldWidth topHeight
          (playfieldHeight - topHeight - Page.PIPE_GAP) false.

(** The spawn policy: the sequence is empty, or its last pipe is more than
    the spawn threshold left of the right edge. *)
Definition spawnDue (playfieldWidth : Qc) (kept : list Pipe.t) : bool :=
  match kept with
  | [] => true
  | _ => Num.ltb (List.last (List.map Pipe.x kept) 0)
                 (playfieldWidth - Num.lit 250)
  end.

(** Passed pipes that one event retires from the sequence: those a Running
    tick shifts off the left edge. *)
Definition retiredBy (s : State) (e : Event) : Z :=
  match e with
  | Tick _ =>
      if negb (gameStarted s) || gameOver s then 0%Z
      else passedCount (List.filter offLeftEdgeb (List.map shifted (pipes s)))
  | _ => 0%Z
  end.

(** A run together with the number of passed pipes retired since the run
    in progress began (a reset starts the count again). *)
Fixpoint runCounting (s : State) (retired : Z) (events : list Event)
  : State * Z :=
  match events with
  | [] => (s, retired)
  | e :: rest =>
      runCounting (Page.step s e)
                  (match e with Reset => 0%Z | _ => (retired + retiredBy s e)%Z end)
                  rest
  end.

(** What links the score to the pipe sequence: the score is the number of
    passed pipes in the sequence plus those retired, and there are no pipes
    before the game starts. *)
Definition scoreInv (s : State) (retired : Z) : Prop :=
  score s = (passedCount (pipes s) + retired)%Z
  /\ (0 <= retired)%Z
  /\ (gameStarted s = false -> pipes s = []).

Definition isTickOrJump (e : Event) : bool :=
  match e with Tick _ | Jump _ => true | _ => false end.
Definition isTickJumpOrReset (e : Event) : bool :=
  match e with Tick _ | Jump _ | Reset => true | _ => false end.

(** An integer that a binary64 number holds exactly and that [toString] and
    [parseInt] write and read digit by digit. *)
Definition safeInteger (n : Z) : Prop := (Z.abs n <= 2 ^ 53)%Z.

(** A stored text whose number, if it has one, carries a minus sign. *)
Definition minusSigned (value : option JS.str) : bool :=
  match JS.trimStart (JS.orZero value) with
  | c :: _ => (c =? 45)%N
  | [] => false
  end.

End Spec.

(** A playable schedule used in the examples: a flap every 36 ticks keeps the
    bird between y = 235 and y = 300 on the default 800 x 600 playfield. *)
Module Demo.
Definition half : Qc := Num.lit 0.5.
Definition flap : list Event := Jump half :: List.repeat (Tick half) 36.
Fixpoint flaps (n : nat) : list Event :=
  match n with
  | O => []
  | S k => flap ++ flaps k
  end.
Definition play (n : nat) : list Event := Jump half :: flaps n.
Definition started : State := Page.run (Page.initial None) [Jump half].
(** A first pipe whose gap lies below the bird's flight, one tick before the
    bird reaches it. *)
Definition approach : State :=
  Page.run (Page.initial None)
           (Jump (Num.lit 0.9) :: flaps 9 ++ Jump half :: List.repeat (Tick half) 6).
(** Without flaps the bird hits the floor within 40 ticks. *)
Definition crashed : State :=
  Page.run (Page.initial None) (Jump half :: List.repeat (Tick half) 40).
End Demo.

(** ** What the component draws *)

Module View.

Local Open Scope Qc_scope.

(** [Math.min] on two numbers. *)
Definition min (a b : Qc) : Qc := if Num.ltb b a then b else a.

(** The angle of the bird's [rotate(...deg)] transform. *)
Definition rotation (b : Bird.t) : Qc :=
  min (Bird.velocity b * Num.lit 3) (Num.lit 45).

(** The two overlays of the render. *)
Definition showStartOverlay (s : State) : bool := negb (gameStarted s).
Definition showGameOverOverlay (s : State) : bool := gameOver s.

End View.

(** ** Notions used for the further properties *)

Module Inv.

Local Open Scope Qc_scope.

Definition withBird (s : State) (b : Bird.t) : State :=
  {| bird := b; pipes := pipes s; gameStarted := gameStarted s;
     gameOver := gameOver s; score := score s; highScore := highScore s;
     gameWidth := gameWidth s; gameHeight := gameHeight s;
     flappyHighScore := flappyHighScore s |}.

Definition withWidth (s : State) (w : Qc) : State :=
  {| bird := bird s; pipes := pipes s; gameStarted := gameStarted s;
     gameOver := gameOver s; score := score s; highScore := highScore s;
     gameWidth := w; gameHeight := gameHeight s;
     flappyHighScore := flappyHighScore s |}.

(** A state on which the collision effect has nothing left to do. *)
Definition settled (s : State) : Prop := Page.checkCollisions s = s.

(** The bird has fully cleared the pipe (the scoring test of the effect). *)
Definition cleared (b : Bird.t) (pipe : Pipe.t) : bool :=
  Num.gtb (Bird.x b) (Pipe.x pipe + Page.PIPE_WIDTH).

(** The bird's column meets the pipe's column. *)
Definition sameColumn (b : Bird.t) (pipe : Pipe.t) : Prop :=
  Pipe.x pipe < Bird.x b + Page.BIRD_WIDTH
  /\ Bird.x b < Pipe.x pipe + Page.PIPE_WIDTH.

(** Marked pipes lie left of the bird's column at x = 100. *)
Definition markedAreLeft (s : State) : Prop :=
  forall p, List.In p (pipes s) -> Pipe.passed p = true ->
            Pipe.x p + Page.PIPE_WIDTH < Num.lit 100.

(** Every pipe is more than [d] left of all later ones. *)
Definition spaced (d : Qc) (ps : list Pipe.t) : Prop :=
  StronglySorted (fun p q => Pipe.x p + d < Pipe.x q) ps.

Definition isMount (e : Event) : bool :=
  match e with Mount _ _ => true | _ => false end.
Definition isReset (e : Event) : bool :=
  match e with Reset => true | _ => false end.

(** The decimal digits of a numeral, most significant first. *)
Fixpoint digits (d : Decimal.uint) : list Z :=
  match d with
  | Decimal.Nil => []
  | Decimal.D0 l => 0%Z :: digits l
  | Decimal.D1 l => 1%Z :: digits l
  | Decimal.D2 l => 2%Z :: digits l
  | Decimal.D3 l => 3%Z :: digits l
  | Decimal.D4 l => 4%Z :: digits l
  | Decimal.D5 l => 5%Z :: digits l
  | Decimal.D6 l => 6%Z :: digits l
  | Decimal.D7 l => 7%Z :: digits l
  | Decimal.D8 l => 8%Z :: digits l
  | Decimal.D9 l => 9%Z :: digits l
  end.

(** The code unit of a decimal digit. *)
Definition digitChar (v : Z) : N := Z.to_N (v + 48).

End Inv.

(** ** Arithmetic on exact numbers *)

Section NumFacts.

Local Open Scope Qc_scope.

Lemma this_plus (a b : Qc) : (this (a + b) == this a + this b)%Q.
Proof. unfold Qcplus, Q2Qc; cbn [this]. apply Qred_correct. Qed.

Lemma this_opp (a : Qc) : (this (- a) == - this a)%Q.
Proof. unfold Qcopp, Q2Qc; cbn [this]. apply Qred_correct. Qed.

Lemma this_minus (a b : Qc) : (this (a - b) == this a - this b)%Q.
Proof. unfold Qcminus. rewrite this_plus, this_opp. reflexivity. Qed.

Lemma this_mult (a b : Qc) : (this (a * b) == this a * this b)%Q.
Proof. unfold Qcmult, Q2Qc; cbn [this]. apply Qred_correct. Qed.

Lemma this_lit (q : Q) : (this (Num.lit q) == q)%Q.
Proof. unfold Num.lit, Q2Qc; cbn [this]. apply Qred_correct. Qed.

Lemma this_Q2Qc (q : Q) : (this (Q2Qc q) == q)%Q.
Proof. unfold Q2Qc; cbn [this]. apply Qred_correct. Qed.

Lemma ltb_lt (a b : Qc) : Num.ltb a b = true <-> a < b.
Proof.
  unfold Num.ltb. rewrite Qclt_alt.
  destruct (a ?= b); split; congruence.
Qed.

Lemma ltb_ge (a b : Qc) : Num.ltb a b = false <-> b <= a.
Proof.
  rewrite <- not_true_iff_false, ltb_lt. split.
  - apply Qcnot_lt_le.
  - apply Qcle_not_lt.
Qed.

Lemma leb_le (a b : Qc) : Num.leb a b = true <-> a <= b.
Proof.
  unfold Num.leb. rewrite Qcle_alt.
  destruct (a ?= b); split; congruence.
Qed.

Lemma leb_gt (a b : Qc) : Num.leb a b = false <-> b < a.
Proof.
  rewrite <- not_true_iff_false, leb_le. split.
  - apply Qcnot_le_lt.
  - apply Qclt_not_le.
Qed.

Lemma same_eq (a b : Qc) : Num.same a b = true <-> a = b.
Proof.
  unfold Num.same. rewrite Qceq_alt.
  destruct (a ?= b); split; congruence.
Qed.

End NumFacts.

(** Moves a goal on [Qc] to one on [Q], where [lra] and [nra] apply. *)
Ltac to_Q :=
  unfold Spec.offLeftEdge, Page.BIRD_WIDTH, Page.BIRD_HEIGHT, Page.PIPE_WIDTH,
    Page.PIPE_GAP, Page.GRAVITY, Page.JUMP_FORCE, Page.PIPE_SPEED in *;
  try apply Qc_is_canon;
  unfold Qcle, Qclt in *;
  repeat match goal with
  | H : context [this (_ + _)%Qc] |- _ => rewrite this_plus in H
  | H : context [this (_ - _)%Qc] |- _ => rewrite this_minus in H
  | H : context [this (_ * _)%Qc] |- _ => rewrite this_mult in H
  | H : context [this (- _)%Qc] |- _ => rewrite this_opp in H
  | H : context [this (Num.lit _)] |- _ => rewrite this_lit in H
  | H : context [this (Q2Qc _)] |- _ => rewrite this_Q2Qc in H
  | |- context [this (_ + _)%Qc] => rewrite this_plus
  | |- context [this (_ - _)%Qc] => rewrite this_minus
  | |- context [this (_ * _)%Qc] => rewrite this_mult
  | |- context [this (- _)%Qc] => rewrite this_opp
  | |- context [this (Num.lit _)] => rewrite this_lit
  | |- context [this (Q2Qc _)] => rewrite this_Q2Qc
  end.

Ltac qc_lra := to_Q; lra.

(** ** The collision effect leaves the bird and the playfield alone *)

Section EffectFrame.

Import Page.

Lemma scan_collided b H ps n :
  fst (fst (scan b H ps n)) = List.existsb (hits b H) ps.
Proof.
  revert n. induction ps as [|pipe rest IH]; intros n; cbn [scan List.existsb].
  - reflexivity.
  - destruct (hits b H pipe); [reflexivity|]. cbn [orb].
    destruct (negb (Pipe.passed pipe) && Num.gtb (Bird.x b) (Pipe.x pipe + PIPE_WIDTH)).
    + specialize (IH (n + 1)%Z). destruct (scan b H rest (n + 1)) as [[c r'] m].
      exact IH.
    + specialize (IH n). destruct (scan b H rest n) as [[c r'] m]. exact IH.
Qed.

Lemma checkCollisions_frame s :
  bird (checkCollisions s) = bird s
  /\ gameStarted (checkCollisions s) = gameStarted s
  /\ gameWidth (checkCollisions s) = gameWidth s
  /\ gameHeight (checkCollisions s) = gameHeight s.
Proof.
  unfold checkCollisions.
  destruct (negb (gameStarted s) || gameOver s); [tauto|].
  destruct (scan (bird s) (gameHeight s) (pipes s) 0) as [[c ps] n].
  destruct c; [cbn; tauto|].
  destruct (n >? 0)%Z; cbn; tauto.
Qed.

Lemma checkCollisions_gameOver s :
  gameOver s = true -> checkCollisions s = s.
Proof.
  intros H. unfold checkCollisions. rewrite H, orb_true_r. reflexivity.
Qed.

Lemma checkCollisions_idle s :
  gameStarted s = false -> checkCollisions s = s.
Proof.
  intros H. unfold checkCollisions. rewrite H. reflexivity.
Qed.

Lemma gameLoop_fields (s : State) (random : Qc) :
  pipes (gameLoop s random)
  = movePipes (gameWidth s) (gameHeight s) random (pipes s)
  /\ gameStarted (gameLoop s random) = gameStarted s
  /\ score (gameLoop s random) = score s
  /\ highScore (gameLoop s random) = highScore s
  /\ flappyHighScore (gameLoop s random) = flappyHighScore s
  /\ gameWidth (gameLoop s random) = gameWidth s
  /\ gameHeight (gameLoop s random) = gameHeight s.
Proof.
  unfold gameLoop. destruct (moveBird (gameHeight s) (bird s)). cbn. tauto.
Qed.

End EffectFrame.

(** ** C1: the physics update of a tick *)

Section Physics.

Import Page.
Local Open Scope Qc_scope.

Lemma moveBird_out gameHeight prev :
  Bird.y prev + Bird.velocity prev <= 0
  \/ gameHeight - BIRD_HEIGHT <= Bird.y prev + Bird.velocity prev ->
  moveBird gameHeight prev = (prev, true).
Proof.
  intros H. unfold moveBird, Num.geb.
  destruct H as [H|H]; apply leb_le in H; rewrite H.
  - reflexivity.
  - rewrite orb_true_r. reflexivity.
Qed.

Lemma moveBird_in gameHeight prev :
  ~ (Bird.y prev + Bird.velocity prev <= 0
     \/ gameHeight - BIRD_HEIGHT <= Bird.y prev + Bird.velocity prev) ->
  moveBird gameHeight prev
  = (Bird.mk (Bird.x prev) (Bird.y prev + Bird.velocity prev)
             (Bird.velocity prev + GRAVITY), false).
Proof.
  intros H. unfold moveBird, Num.geb.
  destruct (Num.leb (Bird.y prev + Bird.velocity prev) 0) eqn:E1.
  - exfalso. apply H. left. apply leb_le. exact E1.
  - destruct (Num.leb (gameHeight - BIRD_HEIGHT) (Bird.y prev + Bird.velocity prev)) eqn:E2.
    + exfalso. apply H. right. apply leb_le. exact E2.
    + reflexivity.
Qed.

Lemma phase_running s :
  phase s = Some Running <-> gameStarted s = true /\ gameOver s = false.
Proof.
  unfold phase. destruct (gameStarted s), (gameOver s); split;
    intros; try tauto; try discriminate; destruct H; discriminate.
Qed.

Lemma phase_over s :
  phase s = Some Over <-> gameStarted s = true /\ gameOver s = true.
Proof.
  unfold phase. destruct (gameStarted s), (gameOver s); split;
    intros; try tauto; try discriminate; destruct H; discriminate.
Qed.

Lemma phase_idle s :
  phase s = Some Idle <-> gameStarted s = false /\ gameOver s = false.
Proof.
  unfold phase. destruct (gameStarted s), (gameOver s); split;
    intros; try tauto; try discriminate; destruct H; discriminate.
Qed.

(** C1.  On a tick in Running, with newY = y + velocity and
    newVelocity = velocity + GRAVITY: if newY <= 0 or
    newY >= gameHeight - BIRD_HEIGHT the game goes from Running to Over and
    the bird keeps its pre-tick value; otherwise the bird becomes
    (x, newY, newVelocity), x unchanged. *)
Theorem C1_tick_physics (s : State) (random : Qc) :
  phase s = Some Running ->
  let newY := Bird.y (bird s) + Bird.velocity (bird s) in
  let newVelocity := Bird.velocity (bird s) + GRAVITY in
  let outOfBounds := newY <= 0 \/ gameHeight s - BIRD_HEIGHT <= newY in
  (outOfBounds ->
     phase (step s (Tick random)) = Some Over
     /\ bird (step s (Tick random)) = bird s)
  /\ (~ outOfBounds ->
     bird (step s (Tick random)) = Bird.mk (Bird.x (bird s)) newY newVelocity).
Proof.
  intros Hrun newY newVelocity outOfBounds.
  apply phase_running in Hrun. destruct Hrun as [Hs Ho].
  cbn [step]. rewrite Hs, Ho. cbn [negb orb].
  split; intros Hb.
  - assert (E : gameLoop s random
                = {| bird := bird s;
                     pipes := movePipes (gameWidth s) (gameHeight s) random (pipes s);
                     gameStarted := gameStarted s; gameOver := true;
                     score := score s; highScore := highScore s;
                     gameWidth := gameWidth s; gameHeight := gameHeight s;
                     flappyHighScore := flappyHighScore s |}).
    { unfold gameLoop. rewrite (moveBird_out _ _ Hb). reflexivity. }
    rewrite E, checkCollisions_gameOver by reflexivity.
    split; [|reflexivity].
    apply phase_over. cbn. split; [exact Hs|reflexivity].
  - destruct (checkCollisions_frame (gameLoop s random)) as [Eb _].
    rewrite Eb. unfold gameLoop. rewrite (moveBird_in _ _ Hb). reflexivity.
Qed.

Lemma C1_tick_physics_witness :
  phase Demo.started = Some Running
  /\ bird (step Demo.started (Tick Demo.half))
     = Bird.mk (Num.lit 100) (Num.lit 300 + 0) (0 + GRAVITY).
Proof.
  split; [reflexivity|].
  apply (C1_tick_physics Demo.started Demo.half); [reflexivity|].
  intros [H|H]; vm_compute in H; apply H; reflexivity.
Defined.

(** The scenario of the specification: a bird at y = 0 with velocity -1 is
    out of bounds on the next tick and keeps its values. *)
Example tick_at_ceiling :
  let s := {| bird := Bird.mk (Num.lit 100) 0 (Num.lit (-1));
              pipes := []; gameStarted := true; gameOver := false;
              score := 0; highScore := 0;
              gameWidth := Num.lit 800; gameHeight := Num.lit 600;
              flappyHighScore := None |} in
  phase (step s (Tick Demo.half)) = Some Over
  /\ bird (step s (Tick Demo.half)) = bird s.
Proof. split; reflexivity. Qed.

End Physics.

(** ** C8: nothing moves after game over *)

Section Frozen.

Import Page.

Lemma step_over (s : State) (e : Event) :
  phase s = Some Over -> Spec.isTickOrJump e = true -> step s e = s.
Proof.
  intros Hp He. apply phase_over in Hp. destruct Hp as [Hs Ho].
  destruct e; try discriminate; cbn [step].
  - unfold jump. rewrite Hs, Ho. cbn [negb].
    apply checkCollisions_gameOver. exact Ho.
  - rewrite Hs, Ho. reflexivity.
Qed.

(** C8.  From a state that is Over, any sequence of tick and jump events
    leaves the whole state as it was, in particular the bird, the pipe
    sequence and the score; only a reset leaves Over. *)
Theorem C8_over_is_frozen (s : State) (events : list Event) :
  phase s = Some Over ->
  List.forallb Spec.isTickOrJump events = true ->
  run s events = s
  /\ bird (run s events) = bird s
  /\ pipes (run s events) = pipes s
  /\ score (run s events) = score s.
Proof.
  intros Hp He.
  assert (E : run s events = s).
  { induction events as [|e rest IH]; [reflexivity|].
    cbn [List.forallb] in He. apply andb_true_iff in He. destruct He as [He1 He2].
    unfold run. cbn [List.fold_left]. rewrite (step_over s e Hp He1).
    apply IH. exact He2. }
  rewrite E. repeat split.
Qed.

Lemma C8_over_is_frozen_witness :
  phase Demo.crashed = Some Over
  /\ run Demo.crashed [Tick Demo.half; Jump Demo.half; Tick Demo.half] = Demo.crashed.
Proof.
  split; [reflexivity|].
  apply (C8_over_is_frozen Demo.crashed [Tick Demo.half; Jump Demo.half; Tick Demo.half]);
    reflexivity.
Defined.

(** Exactly one of Idle, Running and Over holds in every state reached from
    the initial one: the game is never over without having started. *)
Lemma checkCollisions_started (s : State) :
  (gameOver s = true -> gameStarted s = true) ->
  gameOver (checkCollisions s) = true -> gameStarted (checkCollisions s) = true.
Proof.
  intros Hinv. destruct (checkCollisions_frame s) as [_ [Es _]]. rewrite Es.
  unfold checkCollisions.
  destruct (gameStarted s); [reflexivity|]. cbn [negb orb]. exact Hinv.
Qed.

Lemma run_phase_defined (stored : option JS.str) (events : list Event) :
  phase (run (initial stored) events) <> None.
Proof.
  assert (G : forall s, (gameOver s = true -> gameStarted s = true) ->
                        gameOver (run s events) = true ->
                        gameStarted (run s events) = true).
  { induction events as [|e rest IH]; intros s Hinv; [exact Hinv|].
    unfold run. cbn [List.fold_left]. apply IH.
    destruct e as [w h|w h|random|random|]; cbn [step].
    - apply checkCollisions_started. exact Hinv.
    - destruct (Num.same h (gameHeight s)); [exact Hinv|].
      apply checkCollisions_started. exact Hinv.
    - apply checkCollisions_started. unfold jump.
      destruct (gameStarted s) eqn:Gs; cbn [negb]; [|reflexivity].
      destruct (gameOver s); intros _; [exact Gs|reflexivity].
    - destruct (negb (gameStarted s) || gameOver s) eqn:G; [exact Hinv|].
      apply orb_false_iff in G. destruct G as [G _]. apply negb_false_iff in G.
      apply checkCollisions_started. intros _.
      destruct (gameLoop_fields s random) as [_ [E _]]. rewrite E. exact G.
    - apply checkCollisions_started. discriminate. }
  specialize (G (initial stored)). unfold phase.
  destruct (gameStarted (run (initial stored) events)),
           (gameOver (run (initial stored) events)); try discriminate.
  intros _. assert (false = true) by (apply G; [discriminate|reflexivity]).
  discriminate.
Qed.

End Frozen.

(** ** C6 and C3: pipes at creation *)

Section Creation.

Import Page.
Local Open Scope Qc_scope.

Lemma gtb_negb_leb (a b : Qc) : Num.gtb a b = negb (Num.leb a b).
Proof.
  unfold Num.gtb, Num.ltb, Num.leb, Qccompare.
  rewrite <- (Qcompare_antisym a b).
  destruct (Qcompare a b); reflexivity.
Qed.

Lemma spawn_test (playfieldWidth : Qc) (l : list Pipe.t) :
  (Nat.eqb (List.length l) 0
   || match List.nth_error l (List.length l - 1) with
      | Some lastPipe => Num.ltb (Pipe.x lastPipe) (playfieldWidth - Num.lit 250)
      | None => false
      end)%bool
  = Spec.spawnDue playfieldWidth l.
Proof.
  destruct l as [|a l']; [reflexivity|].
  destruct (@exists_last _ (a :: l')) as [front [z E]]; [discriminate|].
  rewrite E. clear E.
  rewrite List.length_app. cbn [List.length].
  replace (List.length front + 1 - 1)%nat with (List.length front) by lia.
  rewrite List.nth_error_app2 by lia.
  rewrite Nat.sub_diag. cbn [List.nth_error].
  replace (Nat.eqb (List.length front + 1) 0) with false
    by (symmetry; apply Nat.eqb_neq; lia).
  cbn [orb]. unfold Spec.spawnDue.
  rewrite List.map_app. cbn [List.map]. rewrite List.last_last.
  destruct front; reflexivity.
Qed.

(** The generator pass of a tick: shift, drop what is off the left edge,
    append a new pipe when the spawn policy asks for one. *)
Lemma movePipes_eq (W H random : Qc) (ps : list Pipe.t) :
  movePipes W H random ps
  = Spec.survivors ps
    ++ (if Spec.spawnDue W (Spec.survivors ps)
        then [Spec.newPipe W H random] else []).
Proof.
  unfold movePipes.
  assert (E : List.filter (fun pipe => Num.gtb (Pipe.x pipe) (- PIPE_WIDTH))
                (List.map (fun pipe => Pipe.mk (Pipe.x pipe - PIPE_SPEED)
                                         (Pipe.topHeight pipe)
                                         (Pipe.bottomHeight pipe)
                                         (Pipe.passed pipe)) ps)
              = Spec.survivors ps).
  { unfold Spec.survivors. apply List.filter_ext.
    intros pipe. apply gtb_negb_leb. }
  rewrite E, spawn_test.
  destruct (Spec.spawnDue W (Spec.survivors ps)).
  - reflexivity.
  - rewrite List.app_nil_r. reflexivity.
Qed.

(** On exact numbers the heights of a created pipe and the gap add up to
    the playfield height; on the binary64 numbers of the code they do so
    only up to rounding, see [C6_counterexample]. *)
Lemma newPipe_wellFormed (W H random : Qc) :
  Spec.wellFormed H (Spec.newPipe W H random).
Proof. unfold Spec.wellFormed, Spec.newPipe. cbn. ring. Qed.




(** A tick that spawns: 108 ticks into a fresh run the sequence holds the
    first pipe, 36 ticks later also a second one, created at tick 126. *)
Example spawn_on_tick :
  let xs (s : State) := List.map (fun pipe => this (Pipe.x pipe)) (pipes s) in
  xs (run (initial None) (Demo.play 3)) = [584%Q]
  /\ xs (run (initial None) (Demo.play 4)) = [512%Q; 764%Q].
Proof. cbv zeta. split; vm_compute; reflexivity. Qed.

Lemma jump_idle_settles (s : State) (random : Qc) :
  gameStarted s = false ->
  Bird.x (bird s) + BIRD_WIDTH <= gameWidth s ->
  checkCollisions (jump s random) = jump s random.
Proof.
  intros Hs Hw. unfold jump. rewrite Hs. cbn [negb].
  unfold checkCollisions. cbn [gameStarted gameOver negb orb bird gameHeight pipes].
  destruct (gameOver s); [reflexivity|].
  cbn [scan]. unfold hits. cbn [Pipe.x Pipe.passed negb andb].
  replace (Num.gtb (Bird.x (bird s) + BIRD_WIDTH) (gameWidth s)) with false.
  2:{ symmetry. unfold Num.gtb. apply ltb_ge. exact Hw. }
  cbn [andb].
  replace (Num.gtb (Bird.x (bird s)) (gameWidth s + PIPE_WIDTH)) with false.
  2:{ symmetry. unfold Num.gtb. apply ltb_ge. qc_lra. }
  reflexivity.
Qed.

(** C3, as the code has it.  The jump handler in Idle leaves exactly one
    pipe, at x = gameWidth, not passed, with
    topHeight = random * (gameHeight - PIPE_GAP - 100) + 50 and
    bottomHeight = gameHeight - topHeight - PIPE_GAP; the bird is untouched
    and the game is Running.  For a draw in [0, 1) on a playfield higher than
    PIPE_GAP + 100 the top height lies in the closed interval
    [50, gameHeight - PIPE_GAP - 50].  On a playfield at least
    bird.x + BIRD_WIDTH wide the collision effect that follows changes
    nothing, so the event as a whole gives this state and leaves the game
    Running. *)
Theorem C3_first_jump (s : State) (random : Qc) :
  phase s = Some Idle ->
  0 <= random -> random < 1 ->
  PIPE_GAP + Num.lit 100 < gameHeight s ->
  (exists pipe,
      pipes (jump s random) = [pipe]
      /\ Pipe.x pipe = gameWidth s
      /\ Pipe.topHeight pipe
         = random * (gameHeight s - PIPE_GAP - Num.lit 100) + Num.lit 50
      /\ Num.lit 50 <= Pipe.topHeight pipe
      /\ Pipe.topHeight pipe <= gameHeight s - PIPE_GAP - Num.lit 50
      /\ Pipe.bottomHeight pipe = gameHeight s - Pipe.topHeight pipe - PIPE_GAP
      /\ Pipe.passed pipe = false)
  /\ phase (jump s random) = Some Running
  /\ bird (jump s random) = bird s
  /\ (Bird.x (bird s) + BIRD_WIDTH <= gameWidth s ->
      step s (Jump random) = jump s random
      /\ phase (step s (Jump random)) = Some Running).
Proof.
  intros Hp H0 H1 HH. apply phase_idle in Hp. destruct Hp as [Hs Ho].
  assert (Hrun : phase (jump s random) = Some Running).
  { apply phase_running. unfold jump. rewrite Hs. cbn.
    split; [reflexivity|exact Ho]. }
  split; [|split; [|split]].
  - exists (Spec.newPipe (gameWidth s) (gameHeight s) random).
    unfold jump. rewrite Hs. cbn.
    repeat split; try reflexivity.
    + to_Q. nra.
    + to_Q. nra.
  - exact Hrun.
  - unfold jump. rewrite Hs. reflexivity.
  - intros Hw.
    assert (E : step s (Jump random) = jump s random)
      by (cbn [step]; apply jump_idle_settles; assumption).
    split; [exact E|]. rewrite E. exact Hrun.
Qed.

Lemma C3_first_jump_witness :
  phase (initial None) = Some Idle
  /\ Bird.x (bird (initial None)) + BIRD_WIDTH <= gameWidth (initial None)
  /\ phase (step (initial None) (Jump Demo.half)) = Some Running.
Proof.
  assert (Hp : phase (initial None) = Some Idle) by reflexivity.
  assert (H0 : 0 <= Demo.half) by (apply leb_le; reflexivity).
  assert (H1 : Demo.half < 1) by reflexivity.
  assert (HH : PIPE_GAP + Num.lit 100 < gameHeight (initial None)) by reflexivity.
  assert (Hw : Bird.x (bird (initial None)) + BIRD_WIDTH <= gameWidth (initial None))
    by (apply leb_le; reflexivity).
  split; [exact Hp|]. split; [exact Hw|].
  exact (proj2 (proj2 (proj2 (proj2
           (C3_first_jump (initial None) Demo.half Hp H0 H1 HH))) Hw)).
Defined.

(** The draw 9/10 on the default 800 x 600 playfield gives a top height of
    320, above gameHeight - PIPE_GAP - 100 = 300. *)
Lemma C3_counterexample :
  let s := initial None in
  let random := Num.lit 0.9 in
  phase s = Some Idle /\ 0 <= random /\ random < 1
  /\ exists pipe,
       pipes (jump s random) = [pipe]
       /\ Pipe.topHeight pipe = Num.lit 320
       /\ ~ (Pipe.topHeight pipe <= gameHeight s - PIPE_GAP - Num.lit 100).
Proof.
  cbv zeta. split; [reflexivity|]. split; [discriminate|]. split; [reflexivity|].
  eexists. split; [reflexivity|]. cbn [Pipe.topHeight].
  split; [apply Qc_is_canon; reflexivity|].
  intros H. vm_compute in H. apply H. reflexivity.
Qed.

(** The upper end of the interval is reached on the code's numbers: at the
    height 768 the largest draw below 1 gives a product that rounds up to
    468 and a top height of 518 = 768 - PIPE_GAP - 50.  At the height 600 the
    same draw stays below 350, and the draw 0.9 gives 320. *)
Example upper_end_is_reached :
  PrimFloat.ltb Binary64.draw_below_1 1 = true
  /\ Binary64.topHeight 768 Binary64.draw_below_1 = 518%float
  /\ Binary64.topHeight 600 Binary64.draw_below_1 = 0x1.5dfffffffffffp+8%float
  /\ Binary64.topHeight 600 0x1.ccccccccccccdp-1 = 320%float.
Proof. repeat split; vm_compute; reflexivity. Qed.

(** On a playfield narrower than the bird's right edge the first pipe can end
    the game in the effect that follows the jump. *)
Example narrow_start_collides :
  let s := step (initial None) (Resize (Num.lit 120) (Num.lit 600)) in
  phase s = Some Idle
  /\ phase (jump s (Num.lit 0.9)) = Some Running
  /\ phase (step s (Jump (Num.lit 0.9))) = Some Over.
Proof. cbv zeta. repeat split; vm_compute; reflexivity. Qed.

End Creation.

(** ** C2: collision detection *)

Section Collision.

Import Page.
Local Open Scope Qc_scope.

(** The test of the code is the predicate of the specification. *)
Lemma hits_collides (b : Bird.t) (H : Qc) (pipe : Pipe.t) :
  hits b H pipe = true <-> Spec.collides b H pipe.
Proof.
  unfold hits, Spec.collides, Spec.overlaps, Num.gtb. split.
  - intros E. apply andb_true_iff in E. destruct E as [E Ev].
    apply andb_true_iff in E. destruct E as [E1 E2].
    apply ltb_lt in E1. apply ltb_lt in E2. split.
    + destruct (Num.leb (Pipe.x pipe) (Bird.x b)) eqn:E3.
      * apply leb_le in E3. exists (Bird.x b). repeat split; qc_lra.
      * apply leb_gt in E3. exists (Pipe.x pipe). repeat split; qc_lra.
    + apply orb_true_iff in Ev. destruct Ev as [Ev|Ev]; apply ltb_lt in Ev; tauto.
  - intros [[t [[Ha Hb] [Hc Hd]]] Hv].
    apply andb_true_iff. split; [apply andb_true_iff; split|].
    + apply ltb_lt. qc_lra.
    + apply ltb_lt. qc_lra.
    + apply orb_true_iff. destruct Hv as [Hv|Hv]; [left|right]; apply ltb_lt; exact Hv.
Qed.

Lemma existsb_hits (b : Bird.t) (H : Qc) (ps : list Pipe.t) :
  List.existsb (hits b H) ps = true
  <-> exists pipe, List.In pipe ps /\ Spec.collides b H pipe.
Proof.
  rewrite List.existsb_exists. split; intros [pipe [Hin Hc]]; exists pipe;
    (split; [exact Hin|]); apply hits_collides; exact Hc.
Qed.

(** The loop stops at the first pipe that is hit: the pipes from there on
    are left as they were. *)
Lemma scan_stops_at_first (b : Bird.t) (H : Qc) (pre post : list Pipe.t)
      (pipe : Pipe.t) (n : Z) :
  List.existsb (hits b H) pre = false -> hits b H pipe = true ->
  exists pre' n',
    scan b H (pre ++ pipe :: post) n = (true, pre' ++ pipe :: post, n')
    /\ List.length pre' = List.length pre.
Proof.
  revert n. induction pre as [|p pre IH]; intros n Hpre Hp.
  - exists [], n. cbn [List.app scan]. rewrite Hp. split; reflexivity.
  - cbn [List.existsb] in Hpre. apply orb_false_iff in Hpre.
    destruct Hpre as [Hp0 Hpre]. cbn [List.app scan]. rewrite Hp0.
    destruct (negb (Pipe.passed p) && Num.gtb (Bird.x b) (Pipe.x p + PIPE_WIDTH)).
    + destruct (IH (n + 1)%Z Hpre Hp) as [pre' [n' [E L]]]. rewrite E.
      eexists (_ :: pre'), n'. split; [reflexivity|]. cbn. rewrite L. reflexivity.
    + destruct (IH n Hpre Hp) as [pre' [n' [E L]]]. rewrite E.
      exists (p :: pre'), n'. split; [reflexivity|]. cbn. rewrite L. reflexivity.
Qed.

Lemma checkCollisions_hit (s : State) :
  gameStarted s = true -> gameOver s = false ->
  List.existsb (hits (bird s) (gameHeight s)) (pipes s) = true ->
  checkCollisions s
  = {| bird := bird s; pipes := pipes s; gameStarted := gameStarted s;
       gameOver := true; score := score s; highScore := highScore s;
       gameWidth := gameWidth s; gameHeight := gameHeight s;
       flappyHighScore := flappyHighScore s |}.
Proof.
  intros Hs Ho Hx. unfold checkCollisions. rewrite Hs, Ho. cbn [negb orb].
  pose proof (scan_collided (bird s) (gameHeight s) (pipes s) 0) as Hc.
  destruct (scan (bird s) (gameHeight s) (pipes s) 0) as [[c ps] n].
  cbn [fst] in Hc. rewrite Hx in Hc. subst c. reflexivity.
Qed.

Lemma checkCollisions_miss (s : State) :
  List.existsb (hits (bird s) (gameHeight s)) (pipes s) = false ->
  gameOver (checkCollisions s) = gameOver s.
Proof.
  intros Hx. unfold checkCollisions.
  destruct (negb (gameStarted s) || gameOver s); [reflexivity|].
  pose proof (scan_collided (bird s) (gameHeight s) (pipes s) 0) as Hc.
  destruct (scan (bird s) (gameHeight s) (pipes s) 0) as [[c ps] n].
  cbn [fst] in Hc. rewrite Hx in Hc. subst c.
  destruct (n >? 0)%Z; reflexivity.
Qed.

(** The effect settles in one pass: run again on its own result, as React
    does after the state it set, it changes nothing. *)
Lemma scan_settled (b : Bird.t) (H : Qc) (ps : list Pipe.t) (n m : Z) :
  fst (fst (scan b H ps n)) = false ->
  scan b H (snd (fst (scan b H ps n))) m = (false, snd (fst (scan b H ps n)), m).
Proof.
  revert n m. induction ps as [|pipe rest IH]; intros n m; cbn [scan].
  - reflexivity.
  - destruct (hits b H pipe) eqn:Eh; [discriminate|].
    destruct (negb (Pipe.passed pipe)
              && Num.gtb (Bird.x b) (Pipe.x pipe + PIPE_WIDTH)) eqn:Ep.
    + specialize (IH (n + 1)%Z m).
      destruct (scan b H rest (n + 1)) as [[c r'] k]. cbn [fst snd] in *.
      intros Hc. cbn [scan].
      change (hits b H (Pipe.mk (Pipe.x pipe) (Pipe.topHeight pipe)
                                (Pipe.bottomHeight pipe) true))
        with (hits b H pipe).
      rewrite Eh. cbn [Pipe.passed negb andb]. rewrite (IH Hc). reflexivity.
    + specialize (IH n m).
      destruct (scan b H rest n) as [[c r'] k]. cbn [fst snd] in *.
      intros Hc. cbn [scan]. rewrite Eh, Ep, (IH Hc). reflexivity.
Qed.

Lemma checkCollisions_idempotent (s : State) :
  checkCollisions (checkCollisions s) = checkCollisions s.
Proof.
  destruct (negb (gameStarted s) || gameOver s) eqn:G.
  - assert (E : checkCollisions s = s)
      by (unfold checkCollisions; rewrite G; reflexivity).
    rewrite E. exact E.
  - pose proof (scan_settled (bird s) (gameHeight s) (pipes s) 0 0) as Hfix.
    destruct (scan (bird s) (gameHeight s) (pipes s) 0) as [[c ps] n] eqn:Es.
    cbn [fst snd] in Hfix.
    destruct c.
    + apply checkCollisions_gameOver.
      unfold checkCollisions. rewrite G, Es. reflexivity.
    + destruct (n >? 0)%Z eqn:En.
      * assert (E : checkCollisions s
                    = {| bird := bird s; pipes := ps;
                         gameStarted := gameStarted s; gameOver := gameOver s;
                         score := (score s + n)%Z;
                         highScore := if (score s + n >? highScore s)%Z
                                      then (score s + n)%Z else highScore s;
                         gameWidth := gameWidth s; gameHeight := gameHeight s;
                         flappyHighScore :=
                           if (score s + n >? highScore s)%Z
                           then Some (JS.toString (score s + n))
                           else flappyHighScore s |})
          by (unfold checkCollisions; rewrite G, Es, En; reflexivity).
        rewrite E. unfold checkCollisions.
        cbn [gameStarted gameOver bird gameHeight pipes].
        rewrite G, (Hfix eq_refl). reflexivity.
      * assert (E : checkCollisions s = s)
          by (unfold checkCollisions; rewrite G, Es, En; reflexivity).
        rewrite E. exact E.
Qed.

(** C2.  Take a tick in Running and let [moved] be the state after the
    interval callback has moved the bird and the pipes.  If some pipe of
    [moved] has its horizontal span overlapping the bird's, with the bird's
    top above the gap or its bottom below it, the tick ends in Over and
    scoring is skipped: the pipe sequence is that of [moved], no pipe newly
    marked, and score, high score and stored high score are unchanged.
    Conversely a tick ends in Over only on such a pipe or when the physics
    update has signalled out-of-bounds. *)
Theorem C2_collision_on_tick (s : State) (random : Qc) :
  phase s = Some Running ->
  let moved := gameLoop s random in
  let after := step s (Tick random) in
  let collision :=
    exists pipe, List.In pipe (pipes moved)
                 /\ Spec.collides (bird moved) (gameHeight moved) pipe in
  (collision ->
     phase after = Some Over
     /\ pipes after = pipes moved /\ score after = score s
     /\ highScore after = highScore s
     /\ flappyHighScore after = flappyHighScore s)
  /\ (phase after = Some Over -> collision \/ gameOver moved = true)
  /\ (gameOver moved = false -> (collision <-> phase after = Some Over)).
Proof.
  intros Hp moved after collision.
  apply phase_running in Hp. destruct Hp as [Hs Ho].
  assert (Ea : after = checkCollisions moved).
  { unfold after. cbn [step]. rewrite Hs, Ho. reflexivity. }
  destruct (gameLoop_fields s random) as [_ [Hms [Hsc [Hhs [Hst _]]]]].
  fold moved in Hms, Hsc, Hhs, Hst. rewrite Hs in Hms.
  assert (Hhit : collision ->
            phase after = Some Over
            /\ pipes after = pipes moved /\ score after = score s
            /\ highScore after = highScore s
            /\ flappyHighScore after = flappyHighScore s).
  { intros Hc. destruct (gameOver moved) eqn:Hin.
    - rewrite Ea, checkCollisions_gameOver by exact Hin.
      split; [apply phase_over; tauto|tauto].
    - apply existsb_hits in Hc.
      pose proof (checkCollisions_hit moved Hms Hin Hc) as E. rewrite <- Ea in E.
      rewrite E. cbn. split; [|tauto].
      apply phase_over. cbn. tauto. }
  assert (Hover : phase after = Some Over -> collision \/ gameOver moved = true).
  { intros Hov. destruct (gameOver moved) eqn:Hin; [right; reflexivity|left].
    apply existsb_hits.
    destruct (List.existsb (hits (bird moved) (gameHeight moved)) (pipes moved)) eqn:Hx;
      [reflexivity|].
    pose proof (checkCollisions_miss moved Hx) as E. rewrite <- Ea in E.
    apply phase_over in Hov. destruct Hov as [_ Hov].
    rewrite E, Hin in Hov. discriminate. }
  split; [exact Hhit|]. split; [exact Hover|].
  intros Hin. split.
  - intros Hc. apply (Hhit Hc).
  - intros Hov. destruct (Hover Hov) as [Hc|Hc]; [exact Hc|congruence].
Qed.

Lemma C2_collision_on_tick_witness :
  phase Demo.approach = Some Running
  /\ gameOver (gameLoop Demo.approach Demo.half) = false
  /\ phase (step Demo.approach (Tick Demo.half)) = Some Over
  /\ score (step Demo.approach (Tick Demo.half)) = score Demo.approach.
Proof.
  assert (Hp : phase Demo.approach = Some Running) by (vm_compute; reflexivity).
  assert (Hb : gameOver (gameLoop Demo.approach Demo.half) = false)
    by (vm_compute; reflexivity).
  destruct (C2_collision_on_tick Demo.approach Demo.half Hp) as [Hskip _].
  assert (Hc : exists pipe,
             List.In pipe (pipes (gameLoop Demo.approach Demo.half))
             /\ Spec.collides (bird (gameLoop Demo.approach Demo.half))
                              (gameHeight (gameLoop Demo.approach Demo.half)) pipe).
  { apply existsb_hits. vm_compute. reflexivity. }
  split; [exact Hp|]. split; [exact Hb|]. split.
  - exact (proj1 (Hskip Hc)).
  - exact (proj1 (proj2 (proj2 (Hskip Hc)))).
Defined.

(** Pipes cleared before the one that is hit are not scored on that tick:
    with a cleared, unmarked pipe first and a hit second, the effect only
    ends the game. *)
Example hit_skips_scoring :
  let s := {| bird := Bird.mk (Num.lit 100) (Num.lit 300) 0;
              pipes := [Pipe.mk (Num.lit 10) (Num.lit 200) (Num.lit 200) false;
                        Pipe.mk (Num.lit 120) (Num.lit 320) (Num.lit 80) false];
              gameStarted := true; gameOver := false;
              score := 0; highScore := 0;
              gameWidth := Num.lit 800; gameHeight := Num.lit 600;
              flappyHighScore := None |} in
  gameOver (checkCollisions s) = true
  /\ pipes (checkCollisions s) = pipes s
  /\ score (checkCollisions s) = 0%Z.
Proof. cbv zeta. repeat split. Qed.

(** The scenario of the specification: two pipes cleared in one pass are
    both marked and the score grows by two. *)
Example two_pipes_in_one_pass :
  let s := {| bird := Bird.mk (Num.lit 100) (Num.lit 300) 0;
              pipes := [Pipe.mk (Num.lit (-20)) (Num.lit 200) (Num.lit 200) false;
                        Pipe.mk (Num.lit 30) (Num.lit 200) (Num.lit 200) false];
              gameStarted := true; gameOver := false;
              score := 3; highScore := 9;
              gameWidth := Num.lit 800; gameHeight := Num.lit 600;
              flappyHighScore := None |} in
  score (checkCollisions s) = 5%Z
  /\ List.map Pipe.passed (pipes (checkCollisions s)) = [true; true]
  /\ highScore (checkCollisions s) = 9%Z.
Proof. cbv zeta. repeat split. Qed.

End Collision.

(** ** C4: the score and the passed flags *)

Section Scoring.

Import Page.
Local Open Scope Z_scope.

Lemma passedCount_cons (p : Pipe.t) (ps : list Pipe.t) :
  Spec.passedCount (p :: ps)
  = (if Pipe.passed p then 1 else 0) + Spec.passedCount ps.
Proof.
  unfold Spec.passedCount. cbn [List.filter].
  destruct (Pipe.passed p); cbn [List.length]; lia.
Qed.

Lemma passedCount_app (l1 l2 : list Pipe.t) :
  Spec.passedCount (l1 ++ l2) = Spec.passedCount l1 + Spec.passedCount l2.
Proof.
  unfold Spec.passedCount. rewrite List.filter_app, List.length_app. lia.
Qed.

Lemma passedCount_nonneg (ps : list Pipe.t) : 0 <= Spec.passedCount ps.
Proof. unfold Spec.passedCount. lia. Qed.

(** Without a hit the loop marks exactly as many pipes as it counts. *)
Lemma scan_counts (b : Bird.t) (H : Qc) (ps : list Pipe.t) (n : Z) :
  fst (fst (scan b H ps n)) = false ->
  snd (scan b H ps n)
  = n + Spec.passedCount (snd (fst (scan b H ps n))) - Spec.passedCount ps.
Proof.
  revert n. induction ps as [|pipe rest IH]; intros n; cbn [scan].
  - cbn. unfold Spec.passedCount. cbn. lia.
  - destruct (hits b H pipe); [discriminate|].
    destruct (negb (Pipe.passed pipe)
              && Num.gtb (Bird.x b) (Qcplus (Pipe.x pipe) PIPE_WIDTH)) eqn:E.
    + specialize (IH (n + 1)).
      destruct (scan b H rest (n + 1)) as [[c r'] m]. cbn [fst snd] in *.
      intros Hc. rewrite (IH Hc), !passedCount_cons. cbn [Pipe.passed].
      apply andb_true_iff in E. destruct E as [E _].
      apply negb_true_iff in E. rewrite E. lia.
    + specialize (IH n).
      destruct (scan b H rest n) as [[c r'] m]. cbn [fst snd] in *.
      intros Hc. rewrite (IH Hc), !passedCount_cons. lia.
Qed.

(** The loop changes no position. *)
Lemma scan_xs (b : Bird.t) (H : Qc) (ps : list Pipe.t) (n : Z) :
  List.map Pipe.x (snd (fst (scan b H ps n))) = List.map Pipe.x ps.
Proof.
  revert n. induction ps as [|pipe rest IH]; intros n; cbn [scan].
  - reflexivity.
  - destruct (hits b H pipe); [reflexivity|].
    destruct (negb (Pipe.passed pipe)
              && Num.gtb (Bird.x b) (Qcplus (Pipe.x pipe) PIPE_WIDTH)).
    + specialize (IH (n + 1)).
      destruct (scan b H rest (n + 1)) as [[c r'] m]. cbn [fst snd] in *.
      cbn [List.map Pipe.x]. rewrite IH. reflexivity.
    + specialize (IH n).
      destruct (scan b H rest n) as [[c r'] m]. cbn [fst snd] in *.
      cbn [List.map]. rewrite IH. reflexivity.
Qed.

Lemma checkCollisions_scoreInv (s : State) (retired : Z) :
  Spec.scoreInv s retired -> Spec.scoreInv (checkCollisions s) retired.
Proof.
  intros [Hsc [Hr Hidle]]. unfold checkCollisions.
  destruct (negb (gameStarted s) || gameOver s) eqn:G; [repeat split; assumption|].
  apply orb_false_iff in G. destruct G as [G _]. apply negb_false_iff in G.
  pose proof (scan_counts (bird s) (gameHeight s) (pipes s) 0) as Hn.
  destruct (scan (bird s) (gameHeight s) (pipes s) 0) as [[c ps] n].
  cbn [fst snd] in Hn.
  destruct c.
  - repeat split; cbn; try assumption.
  - specialize (Hn eq_refl).
    destruct (n >? 0) eqn:En.
    + split; [|split]; cbn; [lia|exact Hr|]. rewrite G. discriminate.
    + repeat split; assumption.
Qed.

Lemma shifted_passed (ps : list Pipe.t) :
  Spec.passedCount (List.map Spec.shifted ps) = Spec.passedCount ps.
Proof.
  induction ps as [|p ps IH]; [reflexivity|].
  cbn [List.map]. rewrite !passedCount_cons, IH. reflexivity.
Qed.

Lemma survivors_passed (ps : list Pipe.t) :
  Spec.passedCount (Spec.survivors ps)
  + Spec.passedCount (List.filter Spec.offLeftEdgeb (List.map Spec.shifted ps))
  = Spec.passedCount ps.
Proof.
  rewrite <- (shifted_passed ps). unfold Spec.survivors.
  induction (List.map Spec.shifted ps) as [|q qs IH]; [reflexivity|].
  cbn [List.filter]. destruct (Spec.offLeftEdgeb q); cbn [negb];
    rewrite !passedCount_cons; lia.
Qed.

Lemma step_scoreInv (s : State) (retired : Z) (e : Event) :
  Spec.scoreInv s retired ->
  Spec.scoreInv (step s e)
    (match e with Reset => 0 | _ => retired + Spec.retiredBy s e end).
Proof.
  intros Hinv. pose proof Hinv as [Hsc [Hr Hidle]].
  destruct e as [w h|w h|random|random|]; cbn [step Spec.retiredBy].
  - rewrite Z.add_0_r. apply checkCollisions_scoreInv.
    repeat split; cbn; assumption.
  - rewrite Z.add_0_r.
    assert (Hh : Spec.scoreInv (handleResize s w h) retired)
      by (repeat split; cbn; assumption).
    destruct (Num.same h (gameHeight s)); [exact Hh|].
    apply checkCollisions_scoreInv. exact Hh.
  - rewrite Z.add_0_r. apply checkCollisions_scoreInv. unfold jump.
    destruct (gameStarted s) eqn:G; cbn [negb].
    + destruct (gameOver s); [exact Hinv|].
      repeat split; cbn; first [assumption | discriminate].
    + rewrite (Hidle eq_refl) in Hsc.
      repeat split; cbn; first [assumption | discriminate].
  - destruct (negb (gameStarted s) || gameOver s) eqn:G.
    + rewrite Z.add_0_r. exact Hinv.
    + apply checkCollisions_scoreInv.
      apply orb_false_iff in G. destruct G as [G _]. apply negb_false_iff in G.
      destruct (gameLoop_fields s random) as [Ep [Es [Esc _]]].
      unfold Spec.scoreInv. rewrite Ep, Es, Esc, movePipes_eq, passedCount_app.
      pose proof (survivors_passed (pipes s)) as Hsv.
      pose proof (passedCount_nonneg
                    (List.filter Spec.offLeftEdgeb (List.map Spec.shifted (pipes s)))).
      split; [|split].
      * destruct (Spec.spawnDue (gameWidth s) (Spec.survivors (pipes s)));
          unfold Spec.passedCount at 2; cbn [List.filter List.length Spec.newPipe Pipe.passed];
          lia.
      * lia.
      * rewrite G. discriminate.
  - apply checkCollisions_scoreInv. repeat split; cbn; reflexivity || lia.
Qed.

Lemma runCounting_run (s : State) (retired : Z) (events : list Event) :
  fst (Spec.runCounting s retired events) = run s events.
Proof.
  revert s retired. induction events as [|e rest IH]; intros s retired.
  - reflexivity.
  - cbn [Spec.runCounting]. rewrite IH. reflexivity.
Qed.

Lemma runCounting_scoreInv (s : State) (retired : Z) (events : list Event) :
  Spec.scoreInv s retired ->
  Spec.scoreInv (fst (Spec.runCounting s retired events))
                (snd (Spec.runCounting s retired events)).
Proof.
  revert s retired. induction events as [|e rest IH]; intros s retired Hinv.
  - exact Hinv.
  - cbn [Spec.runCounting]. apply IH. apply step_scoreInv. exact Hinv.
Qed.

(** C4, as the code has it.  After any sequence of events from the initial
    state, the score equals the number of pipes in the sequence whose passed
    flag is set plus the number of passed pipes the generator has removed
    from the sequence since the run in progress began; so the passed pipes
    still in the sequence never outnumber the score. *)
Theorem C4_score_counts_passed (stored : option JS.str) (events : list Event) :
  let counted := Spec.runCounting (initial stored) 0 events in
  fst counted = run (initial stored) events
  /\ score (run (initial stored) events)
     = Spec.passedCount (pipes (run (initial stored) events)) + snd counted
  /\ 0 <= snd counted
  /\ Spec.passedCount (pipes (run (initial stored) events))
     <= score (run (initial stored) events).
Proof.
  cbv zeta.
  assert (H0 : Spec.scoreInv (initial stored) 0).
  { repeat split; cbn; reflexivity || lia. }
  pose proof (runCounting_scoreInv (initial stored) 0 events H0) as [Hsc [Hr _]].
  rewrite runCounting_run in Hsc.
  split; [apply runCounting_run|]. split; [exact Hsc|]. split; [exact Hr|]. lia.
Qed.

(** Twelve flaps into a run on the default playfield the first pipe has been
    passed (tick 381) and removed (tick 430): the score is 1 and no pipe of
    the sequence is marked passed. *)
Lemma C4_counterexample :
  let s := run (initial None) (Demo.play 12) in
  phase s = Some Running
  /\ score s = 1
  /\ Spec.passedCount (pipes s) = 0
  /\ score s <> Spec.passedCount (pipes s).
Proof. cbv zeta. repeat split; vm_compute; congruence. Qed.

(** While the passed pipe is still on the playfield the two agree. *)
Example score_after_first_pipe :
  let s := run (initial None) (Demo.play 11) in
  score s = 1 /\ Spec.passedCount (pipes s) = 1
  /\ snd (Spec.runCounting (initial None) 0 (Demo.play 11)) = 0
  /\ snd (Spec.runCounting (initial None) 0 (Demo.play 12)) = 1.
Proof. cbv zeta. repeat split; vm_compute; reflexivity. Qed.

End Scoring.

(** ** C5: order of the pipe sequence, and removal *)

Section Ordering.

Import Page.
Local Open Scope Qc_scope.

Lemma ascending_xs (ps : list Pipe.t) :
  Spec.ascending ps <-> StronglySorted Qclt (List.map Pipe.x ps).
Proof.
  unfold Spec.ascending. induction ps as [|p ps IH]; cbn [List.map].
  - split; intros _; constructor.
  - split; intros H; apply StronglySorted_inv in H; destruct H as [Hs Hf];
      constructor; try (apply IH; exact Hs).
    + apply (proj2 (List.Forall_map Pipe.x (Qclt (Pipe.x p)) ps)). exact Hf.
    + apply (proj1 (List.Forall_map Pipe.x (Qclt (Pipe.x p)) ps)). exact Hf.
Qed.

Lemma ascending_same_xs (ps ps' : list Pipe.t) :
  List.map Pipe.x ps' = List.map Pipe.x ps ->
  Spec.ascending ps -> Spec.ascending ps'.
Proof.
  intros E H. apply ascending_xs. rewrite E. apply ascending_xs. exact H.
Qed.

Lemma survivors_in (ps : list Pipe.t) (q : Pipe.t) :
  List.In q (Spec.survivors ps)
  <-> exists p, List.In p ps /\ q = Spec.shifted p /\ ~ Spec.offLeftEdge q.
Proof.
  unfold Spec.survivors, Spec.offLeftEdge, Spec.offLeftEdgeb.
  rewrite List.filter_In, List.in_map_iff. split.
  - intros [[p [E Hin]] Hk]. exists p. split; [exact Hin|]. split; [congruence|].
    apply negb_true_iff in Hk. apply leb_gt in Hk. apply Qclt_not_le. exact Hk.
  - intros [p [Hin [E Hk]]]. split; [exists p; split; congruence|].
    apply negb_true_iff. apply leb_gt. apply Qcnot_le_lt. exact Hk.
Qed.

Lemma survivors_ascending (ps : list Pipe.t) :
  Spec.ascending ps -> Spec.ascending (Spec.survivors ps).
Proof.
  unfold Spec.ascending. induction ps as [|p ps IH]; intros H.
  - constructor.
  - apply StronglySorted_inv in H. destruct H as [Hs Hf].
    change (Spec.survivors (p :: ps))
      with (if negb (Spec.offLeftEdgeb (Spec.shifted p))
            then Spec.shifted p :: Spec.survivors ps else Spec.survivors ps).
    destruct (negb (Spec.offLeftEdgeb (Spec.shifted p))); [|apply IH; exact Hs].
    constructor; [apply IH; exact Hs|].
    apply List.Forall_forall. intros q Hq.
    apply survivors_in in Hq. destruct Hq as [p' [Hin [E _]]]. subst q.
    rewrite List.Forall_forall in Hf. specialize (Hf p' Hin).
    unfold Spec.shifted. cbn [Pipe.x]. qc_lra.
Qed.

(** In an ascending sequence no pipe is right of the last one. *)
Lemma ascending_last (ps : list Pipe.t) (d : Qc) :
  Spec.ascending ps ->
  forall p, List.In p ps -> Pipe.x p <= List.last (List.map Pipe.x ps) d.
Proof.
  unfold Spec.ascending. induction ps as [|a ps IH]; intros H p Hin.
  - destruct Hin.
  - apply StronglySorted_inv in H. destruct H as [Hs Hf].
    destruct ps as [|b ps'].
    + destruct Hin as [->|[]]. cbn. apply Qcle_refl.
    + change (List.last (List.map Pipe.x (a :: b :: ps')) d)
        with (List.last (List.map Pipe.x (b :: ps')) d).
      destruct Hin as [->|Hin].
      * apply Qcle_trans with (Pipe.x b).
        -- apply Qclt_le_weak. apply (List.Forall_inv Hf).
        -- apply (IH Hs b). left. reflexivity.
      * apply (IH Hs p Hin).
Qed.

Lemma ascending_snoc (ps : list Pipe.t) (q : Pipe.t) :
  Spec.ascending ps ->
  (forall p, List.In p ps -> Pipe.x p < Pipe.x q) ->
  Spec.ascending (ps ++ [q]).
Proof.
  unfold Spec.ascending. induction ps as [|a ps IH]; intros H Hlt.
  - cbn. constructor; constructor.
  - apply StronglySorted_inv in H. destruct H as [Hs Hf]. cbn [List.app].
    constructor.
    + apply IH; [exact Hs|]. intros p Hp. apply Hlt. right. exact Hp.
    + apply List.Forall_app. split; [exact Hf|].
      constructor; [|constructor]. apply Hlt. left. reflexivity.
Qed.

Lemma movePipes_ascending (W H random : Qc) (ps : list Pipe.t) :
  Spec.ascending ps -> Spec.ascending (movePipes W H random ps).
Proof.
  intros Hs. rewrite movePipes_eq.
  pose proof (survivors_ascending ps Hs) as Hk.
  destruct (Spec.spawnDue W (Spec.survivors ps)) eqn:Hd.
  - apply ascending_snoc; [exact Hk|].
    intros p Hp. pose proof (ascending_last (Spec.survivors ps) 0 Hk p Hp) as Hl.
    unfold Spec.spawnDue in Hd.
    destruct (Spec.survivors ps) as [|a l]; [destruct Hp|].
    apply ltb_lt in Hd. unfold Spec.newPipe. cbn [Pipe.x]. qc_lra.
  - rewrite List.app_nil_r. exact Hk.
Qed.

Lemma checkCollisions_xs (s : State) :
  List.map Pipe.x (pipes (checkCollisions s)) = List.map Pipe.x (pipes s).
Proof.
  unfold checkCollisions.
  destruct (negb (gameStarted s) || gameOver s); [reflexivity|].
  pose proof (scan_xs (bird s) (gameHeight s) (pipes s) 0) as Hx.
  destruct (scan (bird s) (gameHeight s) (pipes s) 0) as [[c ps] n].
  cbn [fst snd] in Hx.
  destruct c; [reflexivity|]. destruct (n >? 0)%Z; [exact Hx|reflexivity].
Qed.

Lemma checkCollisions_ascending (s : State) :
  Spec.ascending (pipes s) -> Spec.ascending (pipes (checkCollisions s)).
Proof. apply ascending_same_xs. apply checkCollisions_xs. Qed.

Lemma step_ascending (s : State) (e : Event) :
  Spec.ascending (pipes s) -> Spec.ascending (pipes (step s e)).
Proof.
  intros Hs. destruct e as [w h|w h|random|random|]; cbn [step].
  - apply checkCollisions_ascending. exact Hs.
  - destruct (Num.same h (gameHeight s)); [exact Hs|].
    apply checkCollisions_ascending. exact Hs.
  - apply checkCollisions_ascending. unfold jump.
    destruct (negb (gameStarted s)).
    + cbn [pipes]. constructor; constructor.
    + destruct (gameOver s); exact Hs.
  - destruct (negb (gameStarted s) || gameOver s); [exact Hs|].
    apply checkCollisions_ascending.
    destruct (gameLoop_fields s random) as [Ep _]. rewrite Ep.
    apply movePipes_ascending. exact Hs.
  - apply checkCollisions_ascending. cbn. constructor.
Qed.

Lemma run_ascending (s : State) (events : list Event) :
  Spec.ascending (pipes s) -> Spec.ascending (pipes (run s events)).
Proof.
  revert s. induction events as [|e rest IH]; intros s Hs.
  - exact Hs.
  - unfold run. cbn [List.fold_left]. apply IH. apply step_ascending. exact Hs.
Qed.

(** C5, as the code has it.  In every state reached from the initial one the
    pipe sequence is in strictly ascending x: the oldest pipe is first and
    leftmost, the newest last and rightmost.  The generator pass of a tick
    keeps, in order, exactly the shifted pipes that are not off the left edge
    (x greater than -PIPE_WIDTH after the shift) and appends the new pipe, if
    one is due, at the end. *)
Theorem C5_pipes_ascending (stored : option JS.str) (events : list Event) :
  let s := run (initial stored) events in
  Spec.ascending (pipes s)
  /\ forall random,
       pipes (gameLoop s random)
       = Spec.survivors (pipes s)
         ++ (if Spec.spawnDue (gameWidth s) (Spec.survivors (pipes s))
             then [Spec.newPipe (gameWidth s) (gameHeight s) random] else [])
       /\ (forall q, List.In q (Spec.survivors (pipes s))
                     <-> exists p, List.In p (pipes s) /\ q = Spec.shifted p
                                   /\ ~ Spec.offLeftEdge q)
       /\ Spec.ascending (pipes (gameLoop s random)).
Proof.
  cbv zeta.
  assert (Hs : Spec.ascending (pipes (run (initial stored) events))).
  { apply run_ascending. constructor. }
  split; [exact Hs|]. intros random.
  destruct (gameLoop_fields (run (initial stored) events) random) as [Ep _].
  split; [|split].
  - rewrite Ep. apply movePipes_eq.
  - intros q. apply survivors_in.
  - rewrite Ep. apply movePipes_ascending. exact Hs.
Qed.

(** After four flaps the sequence is [x = 512; x = 764]: the first pipe is
    left of the second, so the sequence is not in descending x. *)
Lemma C5_counterexample :
  ~ Spec.descending (pipes (run (initial None) (Demo.play 4))).
Proof.
  intros H.
  assert (E : List.map (fun p => this (Pipe.x p))
                (pipes (run (initial None) (Demo.play 4))) = [512%Q; 764%Q])
    by (vm_compute; reflexivity).
  destruct (pipes (run (initial None) (Demo.play 4))) as [|p [|q rest]];
    try discriminate.
  cbn [List.map] in E. injection E as E1 E2 _.
  apply StronglySorted_inv in H. destruct H as [_ Hf].
  apply List.Forall_inv in Hf. unfold Qcle in Hf. rewrite E1, E2 in Hf.
  apply Hf. reflexivity.
Qed.

(** The scenario of the specification: a pipe at x = -61 is gone after the
    next generator pass. *)
Example offscreen_pipe_removed :
  movePipes (Num.lit 800) (Num.lit 600) Demo.half
            [Pipe.mk (Num.lit (-61)) (Num.lit 200) (Num.lit 200) true;
             Pipe.mk (Num.lit 700) (Num.lit 200) (Num.lit 200) false]
  = [Pipe.mk (Num.lit 700 - PIPE_SPEED) (Num.lit 200) (Num.lit 200) false].
Proof. reflexivity. Qed.

End Ordering.

(** ** C7: the high score *)

Section HighScore.

Import Page.
Local Open Scope Z_scope.

(** What the effect does to the two scores and to the stored value. *)
Lemma checkCollisions_scores (s : State) :
  (score (checkCollisions s) = score s
   /\ highScore (checkCollisions s) = highScore s
   /\ flappyHighScore (checkCollisions s) = flappyHighScore s)
  \/ (score s < score (checkCollisions s)
      /\ ((score (checkCollisions s) <= highScore s
           /\ highScore (checkCollisions s) = highScore s
           /\ flappyHighScore (checkCollisions s) = flappyHighScore s)
          \/ (highScore s < score (checkCollisions s)
              /\ highScore (checkCollisions s) = score (checkCollisions s)
              /\ flappyHighScore (checkCollisions s)
                 = Some (JS.toString (score (checkCollisions s)))))).
Proof.
  unfold checkCollisions.
  destruct (negb (gameStarted s) || gameOver s); [left; tauto|].
  destruct (scan (bird s) (gameHeight s) (pipes s) 0) as [[c ps] n].
  destruct c; [left; cbn; tauto|].
  destruct (n >? 0) eqn:En; [|left; tauto].
  right. apply Z.gtb_lt in En. cbn [score highScore flappyHighScore].
  split; [lia|].
  destruct (score s + n >? highScore s) eqn:Eb.
  - right. apply Z.gtb_lt in Eb. repeat split. lia.
  - left. rewrite Z.gtb_ltb in Eb. apply Z.ltb_ge in Eb. repeat split. exact Eb.
Qed.

Lemma step_highScore_mono (s : State) (e : Event) :
  Spec.isTickJumpOrReset e = true -> highScore s <= highScore (step s e).
Proof.
  intros He. destruct e as [w h|w h|random|random|]; try discriminate; cbn [step].
  - assert (E : highScore (jump s random) = highScore s).
    { unfold jump. destruct (negb (gameStarted s)); [reflexivity|].
      destruct (gameOver s); reflexivity. }
    destruct (checkCollisions_scores (jump s random)) as [[_ [E1 _]]|[_ [[_ [E1 _]]|[E1 [E2 _]]]]];
      lia.
  - destruct (negb (gameStarted s) || gameOver s); [lia|].
    destruct (gameLoop_fields s random) as [_ [_ [_ [E _]]]].
    destruct (checkCollisions_scores (gameLoop s random)) as [[_ [E1 _]]|[_ [[_ [E1 _]]|[E1 [E2 _]]]]];
      lia.
  - rewrite checkCollisions_idle by reflexivity. cbn. lia.
Qed.

Lemma step_score_bounded (s : State) (e : Event) :
  Spec.isTickJumpOrReset e = true ->
  0 <= highScore s -> score s <= highScore s ->
  0 <= highScore (step s e) /\ score (step s e) <= highScore (step s e).
Proof.
  intros He H0 Hle.
  pose proof (step_highScore_mono s e He) as Hm. split; [lia|].
  destruct e as [w h|w h|random|random|]; try discriminate; cbn [step] in *.
  - assert (E : highScore (jump s random) = highScore s /\ score (jump s random) = score s).
    { unfold jump. destruct (negb (gameStarted s)); [split; reflexivity|].
      destruct (gameOver s); split; reflexivity. }
    destruct (checkCollisions_scores (jump s random))
      as [[E0 [E1 _]]|[_ [[E0 [E1 _]]|[_ [E2 _]]]]]; lia.
  - destruct (negb (gameStarted s) || gameOver s); [lia|].
    destruct (gameLoop_fields s random) as [_ [_ [Es [E _]]]].
    destruct (checkCollisions_scores (gameLoop s random))
      as [[E0 [E1 _]]|[_ [[E0 [E1 _]]|[_ [E2 _]]]]]; lia.
  - rewrite checkCollisions_idle by reflexivity. cbn. lia.
Qed.

(** A tick that raises the score above the high score updates the high
    score and the stored value at once. *)
Lemma tick_writes_through (s : State) (random : Qc) :
  score (step s (Tick random)) <> score s ->
  highScore s < score (step s (Tick random)) ->
  highScore (step s (Tick random)) = score (step s (Tick random))
  /\ flappyHighScore (step s (Tick random))
     = Some (JS.toString (score (step s (Tick random)))).
Proof.
  cbn [step]. destruct (negb (gameStarted s) || gameOver s); [congruence|].
  destruct (gameLoop_fields s random) as [_ [_ [Es [E _]]]].
  destruct (checkCollisions_scores (gameLoop s random))
    as [[E0 _]|[_ [[E0 _]|[_ [E2 E3]]]]]; intros Hne Hgt.
  - congruence.
  - lia.
  - split; assumption.
Qed.

(** C7, as the code has it.  Across any sequence of tick, jump and reset
    events the high score never decreases.  Whenever a tick raises the score
    to a value above the current high score, the high score becomes that
    score and its decimal text is stored in the same step.  From a state with
    0 <= high score and score <= high score (the initial state, and the
    state after any load of a non-negative value) these bounds are kept, and
    then every tick whose resulting score exceeds the high score is such a
    tick. *)
Theorem C7_high_score (s : State) (events : list Event) :
  List.forallb Spec.isTickJumpOrReset events = true ->
  highScore s <= highScore (run s events)
  /\ (forall random,
        score (step s (Tick random)) <> score s ->
        highScore s < score (step s (Tick random)) ->
        highScore (step s (Tick random)) = score (step s (Tick random))
        /\ flappyHighScore (step s (Tick random))
           = Some (JS.toString (score (step s (Tick random)))))
  /\ (0 <= highScore s -> score s <= highScore s ->
      0 <= highScore (run s events)
      /\ score (run s events) <= highScore (run s events)
      /\ forall random,
           let after := step (run s events) (Tick random) in
           highScore (run s events) < score after ->
           highScore after = score after
           /\ flappyHighScore after = Some (JS.toString (score after))).
Proof.
  intros He. split; [|split].
  - revert s. induction events as [|e rest IH]; intros s; [cbn; lia|].
    cbn [List.forallb] in He. apply andb_true_iff in He. destruct He as [He1 He2].
    unfold run. cbn [List.fold_left].
    pose proof (step_highScore_mono s e He1).
    pose proof (IH He2 (step s e)) as Hr. unfold run in Hr. lia.
  - intros random. apply tick_writes_through.
  - intros H0 Hle.
    assert (Hb : 0 <= highScore (run s events)
                 /\ score (run s events) <= highScore (run s events)).
    { revert s H0 Hle. induction events as [|e rest IH]; intros s H0 Hle.
      - cbn. split; assumption.
      - cbn [List.forallb] in He. apply andb_true_iff in He.
        destruct He as [He1 He2]. unfold run. cbn [List.fold_left].
        destruct (step_score_bounded s e He1 H0 Hle) as [H0' Hle'].
        apply (IH He2 (step s e) H0' Hle'). }
    destruct Hb as [Hb0 Hb1]. split; [exact Hb0|]. split; [exact Hb1|].
    intros random after Hgt. apply tick_writes_through; [|exact Hgt].
    fold after. lia.
Qed.

Lemma C7_high_score_witness :
  0 <= highScore (initial None) /\ score (initial None) <= highScore (initial None)
  /\ score (run (initial None) (Demo.play 11))
     <= highScore (run (initial None) (Demo.play 11)).
Proof.
  assert (He : List.forallb Spec.isTickJumpOrReset (Demo.play 11) = true)
    by (vm_compute; reflexivity).
  assert (H0 : 0 <= highScore (initial None)) by (cbn; lia).
  assert (H1 : score (initial None) <= highScore (initial None)) by (cbn; lia).
  split; [exact H0|]. split; [exact H1|].
  exact (proj1 (proj2 (proj2 (proj2 (C7_high_score (initial None) (Demo.play 11) He))
                         H0 H1))).
Defined.

(** The tick on which the bird clears the first pipe: the score goes from 0
    to 1, and with it the high score and the stored text "1". *)
Example first_point_is_stored :
  let before := run (initial None) (Demo.play 10 ++ Jump Demo.half
                                     :: List.repeat (Tick Demo.half) 20) in
  let after := step before (Tick Demo.half) in
  (score before, highScore before, flappyHighScore before) = (0, 0, None)
  /\ (score after, highScore after, flappyHighScore after)
     = (1, 1, Some (JS.ofString "1")).
Proof. cbv zeta. split; vm_compute; reflexivity. Qed.

(** With the text "-5" under the key, the load gives a high score of -5; the
    first tick of the game leaves the score at 0, above the high score, and
    neither the high score nor the stored text changes. *)
Lemma C7_counterexample :
  let s := run (initial (Some (JS.ofString "-5")))
               [Mount (Num.lit 800) (Num.lit 600); Jump Demo.half] in
  let after := step s (Tick Demo.half) in
  phase s = Some Running
  /\ highScore s < score after
  /\ highScore after <> score after
  /\ flappyHighScore after <> Some (JS.toString (score after)).
Proof. cbv zeta. repeat split; vm_compute; congruence. Qed.

End HighScore.

(** ** C9: the high score read at startup *)

Section Load.

Import Page.
Local Open Scope Z_scope.

Lemma digitValue_nonneg (c : N) (d : Z) : JS.digitValue c = Some d -> 0 <= d.
Proof.
  unfold JS.digitValue.
  destruct ((48 <=? c) && (c <=? 57))%N eqn:E1.
  - apply andb_true_iff in E1. destruct E1 as [E1 _]. apply N.leb_le in E1.
    intros [= <-]. lia.
  - destruct ((97 <=? c) && (c <=? 122))%N eqn:E2.
    + apply andb_true_iff in E2. destruct E2 as [E2 _]. apply N.leb_le in E2.
      intros [= <-]. lia.
    + destruct ((65 <=? c) && (c <=? 90))%N eqn:E3; [|discriminate].
      apply andb_true_iff in E3. destruct E3 as [E3 _]. apply N.leb_le in E3.
      intros [= <-]. lia.
Qed.

Lemma takeDigits_nonneg (R : Z) (s : JS.str) :
  List.Forall (fun d => 0 <= d) (JS.takeDigits R s).
Proof.
  induction s as [|c rest IH]; cbn [JS.takeDigits]; [constructor|].
  destruct (JS.digitValue c) as [d|] eqn:E; [|constructor].
  destruct (d <? R); [|constructor].
  constructor; [apply (digitValue_nonneg c); exact E|exact IH].
Qed.

Lemma mathInt_nonneg (R : Z) (ds : list Z) :
  0 <= R -> List.Forall (fun d => 0 <= d) ds -> 0 <= JS.mathInt R ds.
Proof.
  intros HR. unfold JS.mathInt.
  assert (G : forall acc, 0 <= acc -> List.Forall (fun d => 0 <= d) ds ->
                          0 <= List.fold_left (fun a d => a * R + d) ds acc).
  { induction ds as [|d ds IH]; intros acc Ha Hf; [exact Ha|].
    cbn [List.fold_left]. apply IH.
    - pose proof (List.Forall_inv Hf). cbn beta in *. nia.
    - apply (List.Forall_inv_tail Hf). }
  apply G. lia.
Qed.

(** A number parsed from a text that carries no minus sign is not negative. *)
Lemma parseInt_unsigned_nonneg (input : JS.str) (n : Z) :
  match JS.trimStart input with
  | c :: _ => (c =? 45)%N = false
  | [] => True
  end ->
  JS.parseInt input = Some n -> 0 <= n.
Proof.
  unfold JS.parseInt. intros Hsign.
  set (trimmed := JS.trimStart input) in *.
  assert (Es : match trimmed with
               | c :: _ => if (c =? 45)%N then -1 else 1
               | [] => 1
               end = 1).
  { destruct trimmed as [|c rest]; [reflexivity|]. rewrite Hsign. reflexivity. }
  rewrite Es.
  set (unsigned := match trimmed with
                   | c :: rest => if ((c =? 43) || (c =? 45))%N then rest else trimmed
                   | [] => trimmed
                   end).
  assert (G : forall R body, 0 <= R ->
              match JS.takeDigits R body with
              | [] => None
              | d :: ds => Some (1 * JS.mathInt R (d :: ds))
              end = Some n -> 0 <= n).
  { intros R body HR. pose proof (takeDigits_nonneg R body) as Hf.
    destruct (JS.takeDigits R body) as [|d ds]; [discriminate|].
    intros E.
    apply (f_equal (fun o => match o with Some z => z | None => 0 end)) in E.
    cbv beta iota in E. rewrite Z.mul_1_l in E. subst n.
    apply mathInt_nonneg; assumption. }
  destruct unsigned as [|c0 [|c1 rest]]; try (apply G; lia).
  destruct ((c0 =? 48) && ((c1 =? 120) || (c1 =? 88)))%N; apply G; lia.
Qed.

(** C9, as the code has it.  The high score after the mount is the loaded
    value, never NaN: it is 0 when nothing is stored, when the stored text is
    empty, and whenever the text does not start (after white space and an
    optional sign) with a digit; it is non-negative whenever the text carries
    no minus sign; and when the integer the text denotes is at most 2^53 in
    magnitude, it is that integer. *)
Theorem C9_loaded_high_score (stored : option JS.str) (innerWidth innerHeight : Qc) :
  highScore (step (initial stored) (Mount innerWidth innerHeight))
  = loadHighScore stored
  /\ (stored = None \/ stored = Some []
      \/ JS.parseInt (JS.orZero stored) = None ->
      loadHighScore stored = 0)
  /\ (Spec.minusSigned stored = false -> 0 <= loadHighScore stored)
  /\ (forall n, JS.parseInt (JS.orZero stored) = Some n -> Spec.safeInteger n ->
                highScore (step (initial stored) (Mount innerWidth innerHeight)) = n).
Proof.
  assert (Hm : highScore (step (initial stored) (Mount innerWidth innerHeight))
               = loadHighScore stored).
  { cbn [step]. rewrite checkCollisions_idle by reflexivity. reflexivity. }
  split; [exact Hm|]. split; [|split].
  - intros [->|[->|E]]; [reflexivity|reflexivity|].
    unfold loadHighScore. rewrite E. reflexivity.
  - unfold Spec.minusSigned, loadHighScore. intros Hs.
    destruct (JS.parseInt (JS.orZero stored)) as [n|] eqn:E; [|lia].
    apply (parseInt_unsigned_nonneg (JS.orZero stored)); [|exact E].
    destruct (JS.trimStart (JS.orZero stored)); [exact I|exact Hs].
  - intros n E _. rewrite Hm. unfold loadHighScore. rewrite E. reflexivity.
Qed.

Lemma C9_loaded_high_score_witness :
  JS.parseInt (JS.orZero (Some (JS.ofString "abc"))) = None
  /\ loadHighScore (Some (JS.ofString "abc")) = 0
  /\ Spec.minusSigned (Some (JS.ofString "17")) = false
  /\ 0 <= loadHighScore (Some (JS.ofString "17"))
  /\ Spec.safeInteger 17
  /\ highScore (step (initial (Some (JS.ofString "17px"))) (Mount 0%Qc 0%Qc)) = 17.
Proof.
  split; [reflexivity|]. split.
  - apply (proj1 (proj2 (C9_loaded_high_score (Some (JS.ofString "abc")) 0%Qc 0%Qc))).
    right. right. reflexivity.
  - split; [reflexivity|]. split.
    + apply (proj1 (proj2 (proj2
               (C9_loaded_high_score (Some (JS.ofString "17")) 0%Qc 0%Qc)))).
      reflexivity.
    + assert (Hs : Spec.safeInteger 17) by (unfold Spec.safeInteger; cbn; lia).
      split; [exact Hs|].
      apply (proj2 (proj2 (proj2
               (C9_loaded_high_score (Some (JS.ofString "17px")) 0%Qc 0%Qc)))
               17); [reflexivity|exact Hs].
Defined.

(** The stored text "-5" loads as -5. *)
Lemma C9_counterexample :
  highScore (step (initial (Some (JS.ofString "-5")))
                  (Mount (Num.lit 800) (Num.lit 600))) = -5
  /\ ~ (0 <= highScore (step (initial (Some (JS.ofString "-5")))
                             (Mount (Num.lit 800) (Num.lit 600)))).
Proof. split; vm_compute; congruence. Qed.

Example parseInt_samples :
  List.map (fun s => JS.parseInt (JS.ofString s))
    ["0"; "12"; "  42px"; "-5"; "+7"; "abc"; ""; "0x1F"; "3.9"; "-"; "007"; "0x"]%string
  = [Some 0; Some 12; Some 42; Some (-5); Some 7; None; None; Some 31; Some 3;
     None; Some 7; None].
Proof. vm_compute. reflexivity. Qed.

Example loadHighScore_samples :
  List.map loadHighScore
    [None; Some []; Some (JS.ofString "abc"); Some (JS.ofString "12");
     Some (JS.toString 7)]
  = [0; 0; 0; 12; 7].
Proof. vm_compute. reflexivity. Qed.

End Load.

(** ** C10: the two variants of the component agree *)

Section Variants.

Local Open Scope Qc_scope.

(** C10.  FlappyGame and Page have the same constants and initial state, and
    on equal states, equal events and equal draws their jump, reset, resize
    and mount handlers, their interval callback, their collision-and-scoring
    effect, and hence every step and every run, give equal states. *)
Theorem C10_variants_agree :
  (FlappyGame.BIRD_WIDTH, FlappyGame.BIRD_HEIGHT, FlappyGame.PIPE_WIDTH,
   FlappyGame.PIPE_GAP, FlappyGame.GRAVITY, FlappyGame.JUMP_FORCE,
   FlappyGame.PIPE_SPEED)
  = (Page.BIRD_WIDTH, Page.BIRD_HEIGHT, Page.PIPE_WIDTH, Page.PIPE_GAP,
     Page.GRAVITY, Page.JUMP_FORCE, Page.PIPE_SPEED)
  /\ (forall stored, FlappyGame.initial stored = Page.initial stored)
  /\ (forall s random, FlappyGame.jump s random = Page.jump s random)
  /\ (forall s, FlappyGame.resetGame s = Page.resetGame s)
  /\ (forall s w h, FlappyGame.handleResize s w h = Page.handleResize s w h)
  /\ (forall s w h, FlappyGame.mount s w h = Page.mount s w h)
  /\ (forall s random, FlappyGame.gameLoop s random = Page.gameLoop s random)
  /\ (forall s, FlappyGame.collisionEffect s = Page.checkCollisions s)
  /\ (forall s e, FlappyGame.step s e = Page.step s e)
  /\ (forall s events, FlappyGame.run s events = Page.run s events).
Proof.
  repeat split.
Qed.

End Variants.

(** * Further properties of the component *)

(** ** States reached from the initial one are settled *)

Section Settled.

Import Page.
Local Open Scope Qc_scope.

Lemma scan_bird_xy (b b' : Bird.t) (H : Qc) (ps : list Pipe.t) (n : Z) :
  Bird.x b' = Bird.x b -> Bird.y b' = Bird.y b ->
  scan b' H ps n = scan b H ps n.
Proof.
  intros Ex Ey. revert n. induction ps as [|pipe rest IH]; intros n; cbn [scan].
  - reflexivity.
  - unfold hits. rewrite Ex, Ey, !IH. reflexivity.
Qed.

Lemma checkCollisions_withBird (s : State) (b : Bird.t) :
  Bird.x b = Bird.x (bird s) -> Bird.y b = Bird.y (bird s) ->
  checkCollisions (Inv.withBird s b) = Inv.withBird (checkCollisions s) b.
Proof.
  intros Ex Ey. unfold checkCollisions.
  cbn [Inv.withBird gameStarted gameOver bird gameHeight pipes].
  destruct (negb (gameStarted s) || gameOver s); [reflexivity|].
  rewrite (scan_bird_xy (bird s) b (gameHeight s) (pipes s) 0 Ex Ey).
  destruct (scan (bird s) (gameHeight s) (pipes s) 0) as [[c ps] n].
  destruct c; [reflexivity|]. destruct (n >? 0)%Z; reflexivity.
Qed.

Lemma checkCollisions_withWidth (s : State) (w : Qc) :
  checkCollisions (Inv.withWidth s w) = Inv.withWidth (checkCollisions s) w.
Proof.
  unfold checkCollisions.
  cbn [Inv.withWidth gameStarted gameOver bird gameHeight pipes].
  destruct (negb (gameStarted s) || gameOver s); [reflexivity|].
  destruct (scan (bird s) (gameHeight s) (pipes s) 0) as [[c ps] n].
  destruct c; [reflexivity|]. destruct (n >? 0)%Z; reflexivity.
Qed.

Lemma step_settled (s : State) (e : Event) :
  Inv.settled s -> Inv.settled (step s e).
Proof.
  unfold Inv.settled. intros Hs.
  destruct e as [w h|w h|random|random|]; cbn [step];
    try apply checkCollisions_idempotent.
  - destruct (Num.same h (gameHeight s)) eqn:E;
      [|apply checkCollisions_idempotent].
    apply same_eq in E. subst h.
    change (handleResize s w (gameHeight s)) with (Inv.withWidth s w).
    rewrite checkCollisions_withWidth, Hs. reflexivity.
  - destruct (negb (gameStarted s) || gameOver s);
      [exact Hs|apply checkCollisions_idempotent].
Qed.

Lemma run_settled (s : State) (events : list Event) :
  Inv.settled s -> Inv.settled (run s events).
Proof.
  revert s. induction events as [|e rest IH]; intros s Hs; [exact Hs|].
  unfold run. cbn [List.fold_left]. apply IH. apply step_settled. exact Hs.
Qed.

Lemma reached_settled (stored : option JS.str) (events : list Event) :
  Inv.settled (run (initial stored) events).
Proof. apply run_settled. apply checkCollisions_idle. reflexivity. Qed.

(** X3.  After any sequence of events from the initial state the collision
    effect, run once more, changes nothing: the re-render that follows the
    effect's own updates finds no collision to signal and no pipe to score. *)
Theorem effect_has_settled (stored : option JS.str) (events : list Event) :
  checkCollisions (run (initial stored) events) = run (initial stored) events.
Proof. apply reached_settled. Qed.

Lemma jump_running (s : State) (random : Qc) :
  gameStarted s = true -> gameOver s = false ->
  jump s random
  = Inv.withBird s (Bird.mk (Bird.x (bird s)) (Bird.y (bird s)) JUMP_FORCE).
Proof. intros Hs Ho. unfold jump, Inv.withBird. rewrite Hs, Ho. reflexivity. Qed.

Lemma step_jump_running (s : State) (random : Qc) :
  Inv.settled s -> gameStarted s = true -> gameOver s = false ->
  step s (Jump random)
  = Inv.withBird s (Bird.mk (Bird.x (bird s)) (Bird.y (bird s)) JUMP_FORCE).
Proof.
  intros Hset Hs Ho. cbn [step]. rewrite (jump_running s random Hs Ho).
  rewrite checkCollisions_withBird by reflexivity.
  rewrite Hset. reflexivity.
Qed.

(** X1.  In a Running state reached from the initial one, a jump sets the
    bird's velocity to JUMP_FORCE and changes nothing else: not the bird's
    position, the pipes, the scores or the phase.  Jumps do not add up: a
    second jump right after the first leaves the state of the first. *)
Theorem jump_while_running (stored : option JS.str) (events : list Event)
        (random random' : Qc) :
  let s := run (initial stored) events in
  phase s = Some Running ->
  step s (Jump random)
  = {| bird := Bird.mk (Bird.x (bird s)) (Bird.y (bird s)) JUMP_FORCE;
       pipes := pipes s; gameStarted := gameStarted s; gameOver := gameOver s;
       score := score s; highScore := highScore s;
       gameWidth := gameWidth s; gameHeight := gameHeight s;
       flappyHighScore := flappyHighScore s |}
  /\ step (step s (Jump random)) (Jump random') = step s (Jump random).
Proof.
  intros s Hp. apply phase_running in Hp. destruct Hp as [Hs Ho].
  pose proof (reached_settled stored events) as Hset. fold s in Hset.
  pose proof (step_jump_running s random Hset Hs Ho) as E1.
  split; [exact E1|].
  pose proof (step_settled s (Jump random) Hset) as Hset'.
  rewrite (step_jump_running (step s (Jump random)) random' Hset');
    rewrite E1; cbn; try assumption.
  reflexivity.
Qed.

Lemma jump_while_running_witness :
  phase (run (initial None) (Demo.play 2)) = Some Running
  /\ step (step (run (initial None) (Demo.play 2)) (Jump Demo.half)) (Jump 0)
     = step (run (initial None) (Demo.play 2)) (Jump Demo.half).
Proof.
  assert (Hp : phase (run (initial None) (Demo.play 2)) = Some Running)
    by (vm_compute; reflexivity).
  split; [exact Hp|].
  exact (proj2 (jump_while_running None (Demo.play 2) Demo.half 0 Hp)).
Defined.

(** X4.  In a Running state reached from the initial one no pipe collides
    with the bird. *)
Theorem running_means_no_collision (stored : option JS.str)
        (events : list Event) :
  let s := run (initial stored) events in
  phase s = Some Running ->
  forall pipe, List.In pipe (pipes s) ->
               ~ Spec.collides (bird s) (gameHeight s) pipe.
Proof.
  intros s Hp pipe Hin Hc. apply phase_running in Hp. destruct Hp as [Hs Ho].
  pose proof (reached_settled stored events) as Hset. fold s in Hset.
  assert (Hx : List.existsb (hits (bird s) (gameHeight s)) (pipes s) = true).
  { apply existsb_hits. exists pipe. split; assumption. }
  pose proof (checkCollisions_hit s Hs Ho Hx) as E.
  unfold Inv.settled in Hset. rewrite Hset in E.
  apply (f_equal gameOver) in E. cbn in E. congruence.
Qed.

Lemma running_means_no_collision_witness :
  phase (run (initial None) (Demo.play 9)) = Some Running
  /\ List.Forall
       (fun pipe => ~ Spec.collides (bird (run (initial None) (Demo.play 9)))
                       (gameHeight (run (initial None) (Demo.play 9))) pipe)
       (pipes (run (initial None) (Demo.play 9))).
Proof.
  assert (Hp : phase (run (initial None) (Demo.play 9)) = Some Running)
    by (vm_compute; reflexivity).
  split; [exact Hp|].
  apply List.Forall_forall.
  exact (running_means_no_collision None (Demo.play 9) Hp).
Defined.

End Settled.

(** ** The bird between events *)

Section BirdFacts.

Import Page.
Local Open Scope Qc_scope.

Lemma gameLoop_bird (s : State) (random : Qc) :
  bird (gameLoop s random) = fst (moveBird (gameHeight s) (bird s))
  /\ gameOver (gameLoop s random)
     = (snd (moveBird (gameHeight s) (bird s)) || gameOver s)%bool.
Proof.
  unfold gameLoop. destruct (moveBird (gameHeight s) (bird s)) as [b [|]];
    split; reflexivity.
Qed.

Lemma moveBird_cases (H : Qc) (prev : Bird.t) :
  moveBird H prev = (prev, true)
  \/ (moveBird H prev
      = (Bird.mk (Bird.x prev) (Bird.y prev + Bird.velocity prev)
                 (Bird.velocity prev + GRAVITY), false)
      /\ 0 < Bird.y prev + Bird.velocity prev
      /\ Bird.y prev + Bird.velocity prev < H - BIRD_HEIGHT).
Proof.
  unfold moveBird, Num.geb.
  destruct (Num.leb (Bird.y prev + Bird.velocity prev) 0) eqn:E1;
    [left; reflexivity|].
  destruct (Num.leb (H - BIRD_HEIGHT) (Bird.y prev + Bird.velocity prev)) eqn:E2;
    [left; reflexivity|].
  right. apply leb_gt in E1. apply leb_gt in E2. repeat split; assumption.
Qed.

Lemma step_bird (s : State) (e : Event) :
  Bird.x (bird (step s e))
  = match e with Reset => Num.lit 100 | _ => Bird.x (bird s) end
  /\ (JUMP_FORCE <= Bird.velocity (bird s) ->
      JUMP_FORCE <= Bird.velocity (bird (step s e))).
Proof.
  destruct e as [w h|w h|random|random|]; cbn [step].
  - destruct (checkCollisions_frame (mount s w h)) as [E _]. rewrite E.
    split; [reflexivity|]. intros Hv. exact Hv.
  - assert (E : bird (if Num.same h (gameHeight s) then handleResize s w h
                      else checkCollisions (handleResize s w h)) = bird s).
    { destruct (Num.same h (gameHeight s)); [reflexivity|].
      destruct (checkCollisions_frame (handleResize s w h)) as [E _]. exact E. }
    rewrite E. split; [reflexivity|]. intros Hv. exact Hv.
  - destruct (checkCollisions_frame (jump s random)) as [E _]. rewrite E.
    unfold jump. destruct (negb (gameStarted s)); [split; [reflexivity|tauto]|].
    destruct (gameOver s); [split; [reflexivity|tauto]|].
    split; [reflexivity|]. intros _. apply Qcle_refl.
  - destruct (negb (gameStarted s) || gameOver s); [split; [reflexivity|tauto]|].
    destruct (checkCollisions_frame (gameLoop s random)) as [E _]. rewrite E.
    destruct (gameLoop_bird s random) as [Eb _]. rewrite Eb.
    destruct (moveBird_cases (gameHeight s) (bird s)) as [Em|[Em _]]; rewrite Em;
      cbn [fst Bird.x Bird.velocity]; split; try reflexivity; try tauto.
    intros Hv. qc_lra.
  - destruct (checkCollisions_frame (resetGame s)) as [E _]. rewrite E.
    split; [reflexivity|]. intros _. cbn. discriminate.
Qed.

Lemma run_bird (stored : option JS.str) (events : list Event) :
  Bird.x (bird (run (initial stored) events)) = Num.lit 100
  /\ JUMP_FORCE <= Bird.velocity (bird (run (initial stored) events)).
Proof.
  assert (G : forall s, Bird.x (bird s) = Num.lit 100 ->
                        JUMP_FORCE <= Bird.velocity (bird s) ->
              Bird.x (bird (run s events)) = Num.lit 100
              /\ JUMP_FORCE <= Bird.velocity (bird (run s events))).
  { induction events as [|e rest IH]; intros s Hx Hv; [split; assumption|].
    unfold run. cbn [List.fold_left]. destruct (step_bird s e) as [Ex Ev].
    apply IH; [|apply Ev; exact Hv].
    rewrite Ex. destruct e; try exact Hx. reflexivity. }
  apply G; [reflexivity|]. cbn. discriminate.
Qed.

(** X2.  The bird never moves horizontally: in every state reached from the
    initial one its x is 100. *)
Theorem bird_x_is_constant (stored : option JS.str) (events : list Event) :
  Bird.x (bird (run (initial stored) events)) = Num.lit 100.
Proof. apply run_bird. Qed.

Lemma min_le (a b : Qc) : View.min a b <= a /\ View.min a b <= b.
Proof.
  unfold View.min. destruct (Num.ltb b a) eqn:E.
  - apply ltb_lt in E. split; [apply Qclt_le_weak; exact E|apply Qcle_refl].
  - apply ltb_ge in E. split; [apply Qcle_refl|exact E].
Qed.

Lemma min_glb (a b c : Qc) : c <= a -> c <= b -> c <= View.min a b.
Proof. intros Ha Hb. unfold View.min. destruct (Num.ltb b a); assumption. Qed.

(** X9.  In every state reached from the initial one the bird's velocity is
    at least JUMP_FORCE, so the angle the bird is drawn at lies between -21
    and 45 degrees. *)
Theorem rotation_is_bounded (stored : option JS.str) (events : list Event) :
  let b := bird (run (initial stored) events) in
  JUMP_FORCE <= Bird.velocity b
  /\ Num.lit (-21) <= View.rotation b
  /\ View.rotation b <= Num.lit 45.
Proof.
  cbv zeta. destruct (run_bird stored events) as [_ Hv].
  split; [exact Hv|]. unfold View.rotation. split.
  - apply min_glb; [qc_lra|discriminate].
  - apply min_le.
Qed.

End BirdFacts.

(** ** Scores and passed flags *)

Section PassedFacts.

Import Page.
Local Open Scope Qc_scope.

Lemma step_score (s : State) (e : Event) :
  Inv.isReset e = false -> (score s <= score (step s e))%Z.
Proof.
  assert (Hc : forall t, (score t <= score (checkCollisions t))%Z).
  { intros t. destruct (checkCollisions_scores t) as [[E _]|[E _]]; lia. }
  destruct e as [w h|w h|random|random|]; cbn [step Inv.isReset];
    try discriminate; intros _.
  - apply (Hc (mount s w h)).
  - destruct (Num.same h (gameHeight s)); [apply Z.le_refl|].
    apply (Hc (handleResize s w h)).
  - apply Z.le_trans with (score (jump s random)); [|apply Hc].
    unfold jump. destruct (negb (gameStarted s)); [apply Z.le_refl|].
    destruct (gameOver s); apply Z.le_refl.
  - destruct (negb (gameStarted s) || gameOver s); [apply Z.le_refl|].
    apply Z.le_trans with (score (gameLoop s random)); [|apply Hc].
    destruct (gameLoop_fields s random) as [_ [_ [E _]]]. rewrite E.
    apply Z.le_refl.
Qed.

(** X6.  Only a reset lowers the score: every other event leaves it as it
    was or raises it, so over any sequence of events without a reset the
    score does not decrease; a reset sets it to 0. *)
Theorem score_only_grows (s : State) (events : list Event) :
  List.forallb (fun e => negb (Inv.isReset e)) events = true ->
  (score s <= score (run s events))%Z
  /\ score (step (run s events) Reset) = 0%Z.
Proof.
  intros He. split.
  - revert s. induction events as [|e rest IH]; intros s; [apply Z.le_refl|].
    cbn [List.forallb] in He. apply andb_true_iff in He. destruct He as [He1 He2].
    apply negb_true_iff in He1.
    unfold run. cbn [List.fold_left].
    apply Z.le_trans with (score (step s e)).
    + apply (step_score s e). exact He1.
    + apply (IH He2).
  - cbn [step]. rewrite checkCollisions_idle by reflexivity. reflexivity.
Qed.

Lemma score_only_grows_witness :
  (score (initial None) <= score (run (initial None) (Demo.play 11)))%Z.
Proof.
  assert (He : List.forallb (fun e => negb (Inv.isReset e)) (Demo.play 11) = true)
    by (vm_compute; reflexivity).
  exact (proj1 (score_only_grows (initial None) (Demo.play 11) He)).
Defined.

Lemma scan_marks_cleared (b : Bird.t) (H : Qc) (ps : list Pipe.t) (n : Z)
      (q : Pipe.t) :
  List.In q (snd (fst (scan b H ps n))) -> Pipe.passed q = true ->
  (exists p, List.In p ps /\ Pipe.x p = Pipe.x q /\ Pipe.passed p = true)
  \/ Inv.cleared b q = true.
Proof.
  revert n. induction ps as [|pipe rest IH]; intros n; cbn [scan].
  - intros [].
  - destruct (hits b H pipe).
    { cbn [fst snd]. intros Hin Hq. left. exists q. tauto. }
    destruct (negb (Pipe.passed pipe)
              && Num.gtb (Bird.x b) (Pipe.x pipe + PIPE_WIDTH)) eqn:E.
    + specialize (IH (n + 1)%Z).
      destruct (scan b H rest (n + 1)) as [[c r'] m]. cbn [fst snd] in *.
      intros [<-|Hin] Hq.
      * right. apply andb_true_iff in E. exact (proj2 E).
      * destruct (IH Hin Hq) as [[p [Hp Hpp]]|Hc]; [left|right; exact Hc].
        exists p. split; [right; exact Hp|exact Hpp].
    + specialize (IH n).
      destruct (scan b H rest n) as [[c r'] m]. cbn [fst snd] in *.
      intros [<-|Hin] Hq.
      * left. exists pipe. split; [left; reflexivity|]. split; [reflexivity|exact Hq].
      * destruct (IH Hin Hq) as [[p [Hp Hpp]]|Hc]; [left|right; exact Hc].
        exists p. split; [right; exact Hp|exact Hpp].
Qed.

(** Without a hit the loop counts the pipes that are cleared and not yet
    marked. *)
Lemma scan_newly (b : Bird.t) (H : Qc) (ps : list Pipe.t) (n : Z) :
  fst (fst (scan b H ps n)) = false ->
  snd (scan b H ps n)
  = (n + Z.of_nat (List.length
         (List.filter (fun p => negb (Pipe.passed p) && Inv.cleared b p) ps)))%Z.
Proof.
  revert n. induction ps as [|pipe rest IH]; intros n; cbn [scan List.filter].
  - cbn. intros _. lia.
  - destruct (hits b H pipe); [discriminate|].
    change (Num.gtb (Bird.x b) (Pipe.x pipe + PIPE_WIDTH))
      with (Inv.cleared b pipe).
    destruct (negb (Pipe.passed pipe) && Inv.cleared b pipe).
    + specialize (IH (n + 1)%Z).
      destruct (scan b H rest (n + 1)) as [[c r'] m]. cbn [fst snd] in *.
      intros Hc. rewrite (IH Hc). cbn [List.length]. lia.
    + specialize (IH n).
      destruct (scan b H rest n) as [[c r'] m]. cbn [fst snd] in *.
      intros Hc. exact (IH Hc).
Qed.

Lemma checkCollisions_pipes (s : State) :
  pipes (checkCollisions s) = pipes s
  \/ (gameStarted s = true /\ gameOver s = false
      /\ fst (fst (scan (bird s) (gameHeight s) (pipes s) 0)) = false
      /\ pipes (checkCollisions s)
         = snd (fst (scan (bird s) (gameHeight s) (pipes s) 0))).
Proof.
  unfold checkCollisions.
  destruct (negb (gameStarted s) || gameOver s) eqn:G; [left; reflexivity|].
  apply orb_false_iff in G. destruct G as [G1 G2]. apply negb_false_iff in G1.
  destruct (scan (bird s) (gameHeight s) (pipes s) 0) as [[c ps] n].
  destruct c; [left; reflexivity|].
  destruct (n >? 0)%Z; [right; cbn; tauto|left; reflexivity].
Qed.

Lemma checkCollisions_marked (s : State) :
  Bird.x (bird s) = Num.lit 100 ->
  Inv.markedAreLeft s -> Inv.markedAreLeft (checkCollisions s).
Proof.
  intros Hx Hm q Hin Hq.
  destruct (checkCollisions_pipes s) as [E|[_ [_ [_ E]]]]; rewrite E in Hin.
  - apply (Hm q Hin Hq).
  - destruct (scan_marks_cleared _ _ _ _ q Hin Hq) as [[p [Hp [Ex Hpp]]]|Hc].
    + rewrite <- Ex. apply (Hm p Hp Hpp).
    + unfold Inv.cleared, Num.gtb in Hc. apply ltb_lt in Hc.
      rewrite Hx in Hc. exact Hc.
Qed.

Lemma movePipes_marked (s : State) (random : Qc) :
  Inv.markedAreLeft s ->
  forall q, List.In q (movePipes (gameWidth s) (gameHeight s) random (pipes s)) ->
            Pipe.passed q = true -> Pipe.x q + PIPE_WIDTH < Num.lit 100.
Proof.
  intros Hm q Hin Hq. rewrite movePipes_eq in Hin.
  apply List.in_app_or in Hin. destruct Hin as [Hin|Hin].
  - apply survivors_in in Hin. destruct Hin as [p [Hp [E _]]]. subst q.
    cbn [Spec.shifted Pipe.passed Pipe.x] in *.
    pose proof (Hm p Hp Hq). qc_lra.
  - destruct (Spec.spawnDue (gameWidth s) (Spec.survivors (pipes s)));
      [|destruct Hin].
    destruct Hin as [<-|[]]. discriminate.
Qed.

Lemma step_marked (s : State) (e : Event) :
  Bird.x (bird s) = Num.lit 100 -> Inv.markedAreLeft s ->
  Inv.markedAreLeft (step s e).
Proof.
  intros Hx Hm. destruct e as [w h|w h|random|random|]; cbn [step].
  - apply checkCollisions_marked; [exact Hx|exact Hm].
  - destruct (Num.same h (gameHeight s)); [exact Hm|].
    apply checkCollisions_marked; [exact Hx|exact Hm].
  - apply checkCollisions_marked.
    + unfold jump. destruct (negb (gameStarted s)); [exact Hx|].
      destruct (gameOver s); exact Hx.
    + unfold jump. destruct (negb (gameStarted s)).
      * intros q [<-|[]]. discriminate.
      * destruct (gameOver s); exact Hm.
  - destruct (negb (gameStarted s) || gameOver s); [exact Hm|].
    apply checkCollisions_marked.
    + destruct (gameLoop_bird s random) as [Eb _]. rewrite Eb.
      destruct (moveBird_cases (gameHeight s) (bird s)) as [Em|[Em _]];
        rewrite Em; exact Hx.
    + intros q. destruct (gameLoop_fields s random) as [Ep _]. rewrite Ep.
      apply movePipes_marked. exact Hm.
  - apply checkCollisions_marked; [reflexivity|]. intros q [].
Qed.

Lemma run_marked (stored : option JS.str) (events : list Event) :
  Inv.markedAreLeft (run (initial stored) events).
Proof.
  assert (G : forall s, Bird.x (bird s) = Num.lit 100 -> Inv.markedAreLeft s ->
                        Inv.markedAreLeft (run s events)).
  { induction events as [|e rest IH]; intros s Hx Hm; [exact Hm|].
    unfold run. cbn [List.fold_left]. apply IH.
    - destruct (step_bird s e) as [Ex _]. rewrite Ex.
      destruct e; try exact Hx. reflexivity.
    - apply step_marked; assumption. }
  apply G; [reflexivity|]. intros q [].
Qed.

(** X5.  In every state reached from the initial one a pipe marked passed
    has been cleared by the bird (bird.x > pipe.x + PIPE_WIDTH); and while
    the game is Running every cleared pipe is marked, so there the passed
    flag is set exactly on the cleared pipes. *)
Theorem passed_means_cleared (stored : option JS.str) (events : list Event) :
  let s := run (initial stored) events in
  (forall p, List.In p (pipes s) -> Pipe.passed p = true ->
             Pipe.x p + PIPE_WIDTH < Bird.x (bird s))
  /\ (phase s = Some Running ->
      forall p, List.In p (pipes s) ->
                (Pipe.passed p = true
                 <-> Pipe.x p + PIPE_WIDTH < Bird.x (bird s))).
Proof.
  intros s.
  assert (Hleft : forall p, List.In p (pipes s) -> Pipe.passed p = true ->
                            Pipe.x p + PIPE_WIDTH < Bird.x (bird s)).
  { intros p Hin Hp. unfold s. rewrite (proj1 (run_bird stored events)).
    apply (run_marked stored events p Hin Hp). }
  split; [exact Hleft|].
  intros Hp p Hin. split; [apply Hleft; exact Hin|]. intros Hc.
  apply phase_running in Hp. destruct Hp as [Hs Ho].
  pose proof (reached_settled stored events) as Hset. fold s in Hset.
  unfold Inv.settled, checkCollisions in Hset. rewrite Hs, Ho in Hset.
  cbn [negb orb] in Hset.
  pose proof (scan_newly (bird s) (gameHeight s) (pipes s) 0) as Hn.
  destruct (scan (bird s) (gameHeight s) (pipes s) 0) as [[c ps] n].
  cbn [fst snd] in Hn.
  destruct c.
  { apply (f_equal gameOver) in Hset. cbn in Hset. congruence. }
  specialize (Hn eq_refl).
  destruct (n >? 0)%Z eqn:En.
  { apply Z.gtb_lt in En. apply (f_equal score) in Hset. cbn in Hset. lia. }
  rewrite Z.gtb_ltb in En. apply Z.ltb_ge in En.
  assert (Hnil : List.filter
                   (fun p => negb (Pipe.passed p) && Inv.cleared (bird s) p)
                   (pipes s) = []).
  { apply List.length_zero_iff_nil. lia. }
  destruct (Pipe.passed p) eqn:Epp; [reflexivity|].
  assert (Hf : List.In p (List.filter
                 (fun p => negb (Pipe.passed p) && Inv.cleared (bird s) p)
                 (pipes s))).
  { apply List.filter_In. split; [exact Hin|]. rewrite Epp. cbn [negb andb].
    unfold Inv.cleared, Num.gtb. apply ltb_lt. exact Hc. }
  rewrite Hnil in Hf. destruct Hf.
Qed.

Lemma passed_means_cleared_witness :
  phase (run (initial None) (Demo.play 11)) = Some Running
  /\ List.Forall
       (fun p => Pipe.passed p = true
                 <-> Pipe.x p + PIPE_WIDTH
                     < Bird.x (bird (run (initial None) (Demo.play 11))))
       (pipes (run (initial None) (Demo.play 11))).
Proof.
  assert (Hp : phase (run (initial None) (Demo.play 11)) = Some Running)
    by (vm_compute; reflexivity).
  split; [exact Hp|]. apply List.Forall_forall.
  exact (proj2 (passed_means_cleared None (Demo.play 11)) Hp).
Defined.

End PassedFacts.

(** ** The pipe sequence *)

Section PipeFacts.

Import Page.
Local Open Scope Qc_scope.

Lemma movePipes_nonempty (W H random : Qc) (ps : list Pipe.t) :
  movePipes W H random ps <> [].
Proof.
  rewrite movePipes_eq.
  destruct (Spec.survivors ps) as [|a l]; cbn; discriminate.
Qed.

Lemma checkCollisions_length (s : State) :
  List.length (pipes (checkCollisions s)) = List.length (pipes s).
Proof.
  rewrite <- (List.length_map Pipe.x), checkCollisions_xs.
  apply List.length_map.
Qed.

Lemma checkCollisions_empty_iff (s : State) :
  pipes (checkCollisions s) = [] <-> pipes s = [].
Proof.
  rewrite <- !List.length_zero_iff_nil, checkCollisions_length. tauto.
Qed.

Lemma step_pipes_started (s : State) (e : Event) :
  (pipes s = [] <-> gameStarted s = false) ->
  (pipes (step s e) = [] <-> gameStarted (step s e) = false).
Proof.
  intros Hinv.
  assert (Hc : forall t, (pipes t = [] <-> gameStarted t = false) ->
               (pipes (checkCollisions t) = []
                <-> gameStarted (checkCollisions t) = false)).
  { intros t Ht. rewrite checkCollisions_empty_iff.
    destruct (checkCollisions_frame t) as [_ [E _]]. rewrite E. exact Ht. }
  destruct e as [w h|w h|random|random|]; cbn [step].
  - apply Hc. exact Hinv.
  - destruct (Num.same h (gameHeight s)); [exact Hinv|]. apply Hc. exact Hinv.
  - apply Hc. unfold jump. destruct (gameStarted s) eqn:Gs; cbn [negb].
    + destruct (gameOver s); cbn [pipes gameStarted]; rewrite ?Gs; exact Hinv.
    + cbn [pipes gameStarted]. split; discriminate.
  - destruct (negb (gameStarted s) || gameOver s) eqn:G; [exact Hinv|].
    apply orb_false_iff in G. destruct G as [G _]. apply negb_false_iff in G.
    apply Hc. destruct (gameLoop_fields s random) as [Ep [Es _]].
    rewrite Ep, Es, G. split; [|discriminate].
    intros E. exfalso. apply (movePipes_nonempty _ _ _ _ E).
  - apply Hc. cbn. tauto.
Qed.

(** X11.  In every state reached from the initial one the pipe sequence is
    empty exactly while the game has not started: a started game, Running or
    Over, always has at least one pipe. *)
Theorem pipes_exist_once_started (stored : option JS.str) (events : list Event) :
  let s := run (initial stored) events in
  pipes s = [] <-> gameStarted s = false.
Proof.
  cbv zeta.
  assert (G : forall s, (pipes s = [] <-> gameStarted s = false) ->
              (pipes (run s events) = [] <-> gameStarted (run s events) = false)).
  { induction events as [|e rest IH]; intros s Hs; [exact Hs|].
    unfold run. cbn [List.fold_left]. apply IH. apply step_pipes_started.
    exact Hs. }
  apply G. cbn. tauto.
Qed.

Lemma spaced_xs (d : Qc) (ps : list Pipe.t) :
  Inv.spaced d ps
  <-> StronglySorted (fun a b => a + d < b) (List.map Pipe.x ps).
Proof.
  unfold Inv.spaced. induction ps as [|p ps IH]; cbn [List.map].
  - split; intros _; constructor.
  - split; intros H; apply StronglySorted_inv in H; destruct H as [Hs Hf];
      constructor; try (apply IH; exact Hs).
    + apply (proj2 (List.Forall_map Pipe.x (fun b => Pipe.x p + d < b) ps)).
      exact Hf.
    + apply (proj1 (List.Forall_map Pipe.x (fun b => Pipe.x p + d < b) ps)).
      exact Hf.
Qed.

Lemma spaced_ascending (d : Qc) (ps : list Pipe.t) :
  0 <= d -> Inv.spaced d ps -> Spec.ascending ps.
Proof.
  intros Hd. unfold Inv.spaced, Spec.ascending.
  induction 1 as [|p ps Hs IH Hf]; constructor; [exact IH|].
  eapply List.Forall_impl; [|exact Hf]. cbn beta. intros q Hq. qc_lra.
Qed.

Lemma survivors_spaced (d : Qc) (ps : list Pipe.t) :
  Inv.spaced d ps -> Inv.spaced d (Spec.survivors ps).
Proof.
  unfold Inv.spaced. induction ps as [|p ps IH]; intros H.
  - constructor.
  - apply StronglySorted_inv in H. destruct H as [Hs Hf].
    change (Spec.survivors (p :: ps))
      with (if negb (Spec.offLeftEdgeb (Spec.shifted p))
            then Spec.shifted p :: Spec.survivors ps else Spec.survivors ps).
    destruct (negb (Spec.offLeftEdgeb (Spec.shifted p))); [|apply IH; exact Hs].
    constructor; [apply IH; exact Hs|].
    apply List.Forall_forall. intros q Hq.
    apply survivors_in in Hq. destruct Hq as [p' [Hin [E _]]]. subst q.
    rewrite List.Forall_forall in Hf. specialize (Hf p' Hin).
    unfold Spec.shifted. cbn [Pipe.x]. qc_lra.
Qed.

Lemma spaced_snoc (d : Qc) (ps : list Pipe.t) (q : Pipe.t) :
  Inv.spaced d ps ->
  (forall p, List.In p ps -> Pipe.x p + d < Pipe.x q) ->
  Inv.spaced d (ps ++ [q]).
Proof.
  unfold Inv.spaced. induction ps as [|a ps IH]; intros H Hlt.
  - cbn. constructor; constructor.
  - apply StronglySorted_inv in H. destruct H as [Hs Hf]. cbn [List.app].
    constructor.
    + apply IH; [exact Hs|]. intros p Hp. apply Hlt. right. exact Hp.
    + apply List.Forall_app. split; [exact Hf|].
      constructor; [|constructor]. apply Hlt. left. reflexivity.
Qed.

Lemma movePipes_spaced (W H random : Qc) (ps : list Pipe.t) :
  Inv.spaced (Num.lit 250) ps ->
  Inv.spaced (Num.lit 250) (movePipes W H random ps).
Proof.
  intros Hs. rewrite movePipes_eq.
  pose proof (survivors_spaced (Num.lit 250) ps Hs) as Hk.
  destruct (Spec.spawnDue W (Spec.survivors ps)) eqn:Hd.
  - apply spaced_snoc; [exact Hk|].
    intros p Hp.
    assert (Ha : Spec.ascending (Spec.survivors ps)).
    { apply (spaced_ascending (Num.lit 250)); [discriminate|exact Hk]. }
    pose proof (ascending_last (Spec.survivors ps) 0 Ha p Hp) as Hl.
    unfold Spec.spawnDue in Hd.
    destruct (Spec.survivors ps) as [|a l]; [destruct Hp|].
    apply ltb_lt in Hd. unfold Spec.newPipe. cbn [Pipe.x]. qc_lra.
  - rewrite List.app_nil_r. exact Hk.
Qed.

Lemma checkCollisions_spaced (d : Qc) (s : State) :
  Inv.spaced d (pipes s) -> Inv.spaced d (pipes (checkCollisions s)).
Proof.
  intros H. apply spaced_xs. rewrite checkCollisions_xs. apply spaced_xs.
  exact H.
Qed.

Lemma step_spaced (s : State) (e : Event) :
  Inv.spaced (Num.lit 250) (pipes s) ->
  Inv.spaced (Num.lit 250) (pipes (step s e)).
Proof.
  intros Hs. destruct e as [w h|w h|random|random|]; cbn [step].
  - apply checkCollisions_spaced. exact Hs.
  - destruct (Num.same h (gameHeight s)); [exact Hs|].
    apply checkCollisions_spaced. exact Hs.
  - apply checkCollisions_spaced. unfold jump.
    destruct (negb (gameStarted s)).
    + cbn [pipes]. constructor; constructor.
    + destruct (gameOver s); exact Hs.
  - destruct (negb (gameStarted s) || gameOver s); [exact Hs|].
    apply checkCollisions_spaced.
    destruct (gameLoop_fields s random) as [Ep _]. rewrite Ep.
    apply movePipes_spaced. exact Hs.
  - apply checkCollisions_spaced. cbn. constructor.
Qed.

Lemma spaced_pairs (d : Qc) (ps : list Pipe.t) (p q : Pipe.t) :
  Inv.spaced d ps -> List.In p ps -> List.In q ps ->
  p = q \/ Pipe.x p + d < Pipe.x q \/ Pipe.x q + d < Pipe.x p.
Proof.
  unfold Inv.spaced. induction 1 as [|a ps Hs IH Hf]; intros Hp Hq.
  - destruct Hp.
  - rewrite List.Forall_forall in Hf.
    destruct Hp as [<-|Hp], Hq as [<-|Hq].
    + left. reflexivity.
    + right. left. apply Hf. exact Hq.
    + right. right. apply Hf. exact Hp.
    + apply IH; assumption.
Qed.

(** X10.  In every state reached from the initial one, each pipe is more
    than 250 left of every later pipe of the sequence; hence at most one pipe
    shares the bird's column, and at most one pipe can be hit at a time. *)
Theorem pipes_are_spaced (stored : option JS.str) (events : list Event) :
  let s := run (initial stored) events in
  Inv.spaced (Num.lit 250) (pipes s)
  /\ forall p q, List.In p (pipes s) -> List.In q (pipes s) ->
                 Inv.sameColumn (bird s) p -> Inv.sameColumn (bird s) q ->
                 p = q.
Proof.
  intros s.
  assert (Hs : Inv.spaced (Num.lit 250) (pipes s)).
  { unfold s.
    assert (G : forall t, Inv.spaced (Num.lit 250) (pipes t) ->
                          Inv.spaced (Num.lit 250) (pipes (run t events))).
    { induction events as [|e rest IH]; intros t Ht; [exact Ht|].
      unfold run. cbn [List.fold_left]. apply IH. apply step_spaced. exact Ht. }
    apply G. constructor. }
  split; [exact Hs|].
  intros p q Hp Hq [Hp1 Hp2] [Hq1 Hq2].
  destruct (spaced_pairs (Num.lit 250) (pipes s) p q Hs Hp Hq) as [E|[E|E]];
    [exact E| |]; exfalso; revert Hp1 Hp2 Hq1 Hq2 E;
    generalize (Bird.x (bird s)) (Pipe.x p) (Pipe.x q); intros bx px qx;
    intros; qc_lra.
Qed.

End PipeFacts.

(** ** The stored high score reads back *)

Section Persistence.

Import Page.
Local Open Scope Z_scope.

Lemma digits_range (d : Decimal.uint) :
  List.Forall (fun v => 0 <= v <= 9) (Inv.digits d).
Proof. induction d; cbn [Inv.digits]; constructor; (lia || assumption). Qed.

Lemma ofString_uint (d : Decimal.uint) :
  JS.ofString (NilEmpty.string_of_uint d) = List.map Inv.digitChar (Inv.digits d).
Proof.
  unfold JS.ofString.
  induction d; cbn [NilEmpty.string_of_uint list_ascii_of_string List.map Inv.digits];
    [reflexivity|..]; rewrite IHd; reflexivity.
Qed.

Lemma digitChar_range (v : Z) :
  0 <= v <= 9 -> (48 <= Inv.digitChar v <= 57)%N.
Proof. unfold Inv.digitChar. lia. Qed.

Lemma digit_not_space (c : N) :
  (48 <= c <= 57)%N -> JS.isStrWhiteSpace c = false.
Proof.
  intros Hc. unfold JS.isStrWhiteSpace.
  repeat match goal with
  | |- context [(c =? ?k)%N] =>
      replace (c =? k)%N with false by (symmetry; apply N.eqb_neq; lia)
  end.
  replace (8192 <=? c)%N with false by (symmetry; apply N.leb_gt; lia).
  reflexivity.
Qed.

Lemma digitValue_digitChar (v : Z) :
  0 <= v <= 9 -> JS.digitValue (Inv.digitChar v) = Some v.
Proof.
  intros Hv. pose proof (digitChar_range v Hv) as Hc. unfold JS.digitValue.
  replace (48 <=? Inv.digitChar v)%N with true by (symmetry; apply N.leb_le; lia).
  replace (Inv.digitChar v <=? 57)%N with true by (symmetry; apply N.leb_le; lia).
  cbn [andb]. f_equal. unfold Inv.digitChar. lia.
Qed.

Lemma takeDigits_chars (vs : list Z) :
  List.Forall (fun v => 0 <= v <= 9) vs ->
  JS.takeDigits 10 (List.map Inv.digitChar vs) = vs.
Proof.
  induction 1 as [|v vs Hv Hf IH]; [reflexivity|].
  cbn [List.map JS.takeDigits]. rewrite (digitValue_digitChar v Hv).
  replace (v <? 10) with true by (symmetry; apply Z.ltb_lt; lia).
  rewrite IH. reflexivity.
Qed.

(** [parseInt] on a text that starts with something other than white space,
    a sign or a hexadecimal prefix, bare or after a minus sign. *)
Lemma parseInt_plain (c : N) (cs : JS.str) :
  JS.isStrWhiteSpace c = false -> c <> 45%N -> c <> 43%N ->
  match cs with c1 :: _ => c1 <> 120%N /\ c1 <> 88%N | [] => True end ->
  JS.parseInt (c :: cs)
  = match JS.takeDigits 10 (c :: cs) with
    | [] => None
    | d :: ds => Some (JS.mathInt 10 (d :: ds))
    end
  /\ JS.parseInt (45%N :: c :: cs)
     = match JS.takeDigits 10 (c :: cs) with
       | [] => None
       | d :: ds => Some (- JS.mathInt 10 (d :: ds))
       end.
Proof.
  intros Hw H45 H43 Hx.
  assert (Hhex : forall c1,
             match cs with c1' :: _ => c1 = c1' | [] => False end ->
             ((c =? 48) && ((c1 =? 120) || (c1 =? 88)))%N = false).
  { intros c1 E. destruct cs as [|c1' rest]; [destruct E|]. subst c1'.
    destruct Hx as [H120 H88].
    apply N.eqb_neq in H120. apply N.eqb_neq in H88.
    rewrite H120, H88. apply andb_false_r. }
  apply N.eqb_neq in H45. apply N.eqb_neq in H43.
  split.
  - unfold JS.parseInt. cbn [JS.trimStart]. rewrite Hw, H45, H43. cbn [orb].
    destruct cs as [|c1 rest]; [|rewrite (Hhex c1 eq_refl)];
      (destruct (JS.takeDigits 10 _); [reflexivity|f_equal; lia]).
  - unfold JS.parseInt.
    change (JS.trimStart (45%N :: c :: cs)) with (45%N :: c :: cs).
    cbv beta iota. change (45 =? 45)%N with true.
    change (45 =? 43)%N with false. cbn [orb].
    destruct cs as [|c1 rest]; [|rewrite (Hhex c1 eq_refl)];
      (destruct (JS.takeDigits 10 _); [reflexivity|f_equal; lia]).
Qed.

Lemma parseInt_chars (vs : list Z) :
  vs <> [] -> List.Forall (fun v => 0 <= v <= 9) vs ->
  JS.parseInt (List.map Inv.digitChar vs) = Some (JS.mathInt 10 vs)
  /\ JS.parseInt (45%N :: List.map Inv.digitChar vs)
     = Some (- JS.mathInt 10 vs).
Proof.
  intros Hne Hf. pose proof (takeDigits_chars vs Hf) as Ht.
  destruct vs as [|v vs]; [congruence|]. clear Hne. cbn [List.map] in *.
  pose proof (List.Forall_inv Hf) as Hv. cbn beta in Hv.
  pose proof (digitChar_range v Hv) as Hc.
  assert (Hx : match List.map Inv.digitChar vs with
               | c1 :: _ => c1 <> 120%N /\ c1 <> 88%N
               | [] => True
               end).
  { destruct vs as [|v1 vs]; [exact I|]. cbn [List.map].
    pose proof (List.Forall_inv (List.Forall_inv_tail Hf)) as Hv1. cbn beta in Hv1.
    pose proof (digitChar_range v1 Hv1). lia. }
  destruct (parseInt_plain (Inv.digitChar v) (List.map Inv.digitChar vs))
    as [E1 E2]; [apply digit_not_space; exact Hc|lia|lia|exact Hx|].
  rewrite E1, E2, Ht. split; reflexivity.
Qed.

Lemma fold_digits_acc (d : Decimal.uint) (acc : positive) :
  List.fold_left (fun a v => a * 10 + v) (Inv.digits d) (Z.pos acc)
  = Z.pos (Pos.of_uint_acc d acc).
Proof.
  revert acc. induction d; intros acc; cbn [Inv.digits List.fold_left Pos.of_uint_acc];
    [reflexivity|..]; rewrite <- IHd; f_equal; lia.
Qed.

Lemma mathInt_digits (d : Decimal.uint) :
  JS.mathInt 10 (Inv.digits d) = Z.of_N (Pos.of_uint d).
Proof.
  unfold JS.mathInt.
  induction d; cbn [Inv.digits List.fold_left Pos.of_uint];
    [reflexivity|exact IHd|..];
    cbn [Z.mul Z.add Z.of_N]; apply fold_digits_acc.
Qed.

Lemma digits_nonnil (d : Decimal.uint) : d <> Decimal.Nil -> Inv.digits d <> [].
Proof. destruct d; cbn; congruence. Qed.

Lemma parseInt_toString (n : Z) : JS.parseInt (JS.toString n) = Some n.
Proof.
  unfold JS.toString. destruct n as [|p|p]; [reflexivity| |];
    cbn [Z.to_int NilZero.string_of_int].
  - assert (Hn : Pos.to_uint p <> Decimal.Nil) by apply Unsigned.to_uint_nonnil.
    replace (NilZero.string_of_uint (Pos.to_uint p))
      with (NilEmpty.string_of_uint (Pos.to_uint p))
      by (destruct (Pos.to_uint p); [congruence|reflexivity..]).
    rewrite ofString_uint.
    rewrite (proj1 (parseInt_chars _ (digits_nonnil _ Hn) (digits_range _))).
    rewrite mathInt_digits, Unsigned.of_to. reflexivity.
  - assert (Hn : Pos.to_uint p <> Decimal.Nil) by apply Unsigned.to_uint_nonnil.
    replace (NilZero.string_of_uint (Pos.to_uint p))
      with (NilEmpty.string_of_uint (Pos.to_uint p))
      by (destruct (Pos.to_uint p); [congruence|reflexivity..]).
    change (JS.ofString (String "-" (NilEmpty.string_of_uint (Pos.to_uint p))))
      with (45%N :: JS.ofString (NilEmpty.string_of_uint (Pos.to_uint p))).
    rewrite ofString_uint.
    rewrite (proj2 (parseInt_chars _ (digits_nonnil _ Hn) (digits_range _))).
    rewrite mathInt_digits, Unsigned.of_to. reflexivity.
Qed.

Lemma loadHighScore_toString (n : Z) : loadHighScore (Some (JS.toString n)) = n.
Proof.
  pose proof (parseInt_toString n) as E. unfold loadHighScore.
  assert (Ho : JS.orZero (Some (JS.toString n)) = JS.toString n).
  { unfold JS.orZero. destruct (JS.toString n); [|reflexivity].
    discriminate E. }
  rewrite Ho, E. reflexivity.
Qed.

(** X7.  For an integer of magnitude at most 2^53, writing it with
    [toString] and reading the text with [parseInt] gives the integer back,
    so a high score that the game has stored loads as the same number. *)
Theorem stored_score_reads_back (n : Z) :
  Spec.safeInteger n ->
  JS.parseInt (JS.toString n) = Some n
  /\ loadHighScore (Some (JS.toString n)) = n.
Proof.
  intros _. split; [apply parseInt_toString|apply loadHighScore_toString].
Qed.

Lemma stored_score_reads_back_witness :
  Spec.safeInteger 120
  /\ JS.parseInt (JS.toString 120) = Some 120
  /\ loadHighScore (Some (JS.toString 120)) = 120.
Proof.
  assert (Hs : Spec.safeInteger 120) by (unfold Spec.safeInteger; cbn; lia).
  split; [exact Hs|]. exact (stored_score_reads_back 120 Hs).
Defined.

Lemma checkCollisions_stored (s : State) :
  loadHighScore (flappyHighScore s) = highScore s ->
  loadHighScore (flappyHighScore (checkCollisions s))
  = highScore (checkCollisions s).
Proof.
  intros Hj.
  destruct (checkCollisions_scores s)
    as [[_ [E1 E2]]|[_ [[_ [E1 E2]]|[_ [E1 E2]]]]]; rewrite E1, E2;
    [exact Hj|exact Hj|apply loadHighScore_toString].
Qed.

Lemma step_stored (s : State) (e : Event) :
  loadHighScore (flappyHighScore s) = highScore s \/ Inv.isMount e = true ->
  loadHighScore (flappyHighScore (step s e)) = highScore (step s e).
Proof.
  intros Hj. destruct e as [w h|w h|random|random|]; cbn [step];
    try (destruct Hj as [Hj|Hj]; [|discriminate Hj]).
  - apply checkCollisions_stored. reflexivity.
  - destruct (Num.same h (gameHeight s)); [exact Hj|].
    apply checkCollisions_stored. exact Hj.
  - apply checkCollisions_stored. unfold jump.
    destruct (negb (gameStarted s)); [exact Hj|].
    destruct (gameOver s); exact Hj.
  - destruct (negb (gameStarted s) || gameOver s); [exact Hj|].
    apply checkCollisions_stored.
    destruct (gameLoop_fields s random) as [_ [_ [_ [E1 [E2 _]]]]].
    rewrite E1, E2. exact Hj.
  - apply checkCollisions_stored. exact Hj.
Qed.

(** X8.  Once the component has mounted, the stored text always reads back
    as the current high score, whatever was stored before and whatever
    events follow; so a reload of the page restores the high score. *)
Theorem reload_restores_high_score (stored : option JS.str) (w h w' h' : Qc)
        (events : list Event) :
  let s := run (initial stored) (Mount w h :: events) in
  loadHighScore (flappyHighScore s) = highScore s
  /\ highScore (step (initial (flappyHighScore s)) (Mount w' h')) = highScore s.
Proof.
  intros s.
  assert (Hj : loadHighScore (flappyHighScore s) = highScore s).
  { unfold s, run. cbn [List.fold_left].
    assert (G : forall t, loadHighScore (flappyHighScore t) = highScore t ->
                loadHighScore (flappyHighScore (List.fold_left step events t))
                = highScore (List.fold_left step events t)).
    { induction events as [|e rest IH]; intros t Ht; [exact Ht|].
      cbn [List.fold_left]. apply IH. apply step_stored. left. exact Ht. }
    apply G. apply step_stored. right. reflexivity. }
  split; [exact Hj|].
  cbn [step]. rewrite checkCollisions_idle by reflexivity. exact Hj.
Qed.

(** A game that scores one point and is then loaded afresh shows 1 as its
    high score. *)
Example high_score_survives_reload :
  let s := run (initial None) (Mount (Num.lit 800) (Num.lit 600) :: Demo.play 11) in
  flappyHighScore s = Some (JS.ofString "1")
  /\ highScore (step (initial (flappyHighScore s))
                     (Mount (Num.lit 1024) (Num.lit 768))) = 1.
Proof. cbv zeta. split; vm_compute; reflexivity. Qed.

End Persistence.

(** ** Overlays *)

Section Overlays.

Import Page.

(** X15.  In every state reached from the initial one the start overlay and
    the game-over overlay are never drawn together: the start overlay is
    drawn exactly in Idle, the game-over overlay exactly in Over, and neither
    in Running. *)
Theorem overlays_follow_phase (stored : option JS.str) (events : list Event) :
  let s := run (initial stored) events in
  (View.showStartOverlay s && View.showGameOverOverlay s = false)%bool
  /\ (View.showStartOverlay s = true <-> phase s = Some Idle)
  /\ (View.showGameOverOverlay s = true <-> phase s = Some Over)
  /\ (View.showStartOverlay s = false /\ View.showGameOverOverlay s = false
      <-> phase s = Some Running).
Proof.
  intros s. pose proof (run_phase_defined stored events) as Hd. fold s in Hd.
  unfold View.showStartOverlay, View.showGameOverOverlay, phase in *.
  destruct (gameStarted s), (gameOver s); cbn in *;
    repeat split; intros; try congruence; try tauto;
    repeat match goal with H : _ /\ _ |- _ => destruct H end; congruence.
Qed.

End Overlays.

(** ** The bird after a tick *)

Section AfterTick.

Import Page.
Local Open Scope Qc_scope.




End AfterTick.

(** ** Pipe heights *)

Section Heights.

Import Page.
Local Open Scope Qc_scope.





(** After a resize from 600 to 700 the pipe on screen still has the heights
    made for 600: the opening between them is 300 high. *)
Example resize_changes_gap :
  let s := step (run (initial None) (Demo.play 1))
                (Resize (Num.lit 800) (Num.lit 700)) in
  List.map (fun pipe => this (gameHeight s - Pipe.bottomHeight pipe
                              - Pipe.topHeight pipe))
           (pipes s) = [300%Q].
Proof. cbv zeta. vm_compute. reflexivity. Qed.

End Heights.
